(** * Smitten: sequence identifier parsing, conversion and normalisation

    Shallow embedding of [src/rust/src/lib.rs].

    - Text is modelled as [list ascii] (the model covers ASCII input).
    - [usize] is modelled as [N] on a 64-bit target. Arithmetic is checked,
      as in a debug build: an overflow or underflow panics.
    - The two regular expressions of the source are modelled with the
      regex crate's leftmost-first semantics. The search is unanchored, so
      the leftmost start position wins. At that start the greedy group 1, [( . * )],
      takes the longest prefix, and [.] does not match a newline.
    - A Rust [Result<_, String>] becomes [Result] below. It has one error
      constructor per error message of the source, plus [Panic] for an
      [unwrap] or index panic and for checked arithmetic that overflows. *)

From Stdlib Require Import Ascii String.
From Stdlib Require Import List NArith ZArith Lia Bool.
From Stdlib Require Import DecimalN.
Import ListNotations.

Local Open Scope list_scope.

Definition str := list ascii.

(** ** Data model *)

Inductive IDVersion := Undefined | V0 | V1 | V2.

Definition IDVersion_eqb (a b : IDVersion) : bool :=
  match a, b with
  | Undefined, Undefined | V0, V0 | V1, V1 | V2, V2 => true
  | _, _ => false
  end.

Record Range := mkRange {
  start : N;
  end_ : N;              (* [end] in the source *)
  orientation : ascii    (* '+' or '-' *)
}.

Record Identifier := mkIdentifier {
  assembly_id : option str;
  sequence_id : str;
  ranges : list Range;
  inferred_version : IDVersion
}.

(** One constructor per [Err(format!(...))] of the source. *)
Inductive Error :=
| MalformedInput              (* "contains a space or a line termination character" *)
| DecreasingRange             (* "must have increasing range order" *)
| ZeroCoordinate              (* "Invalid range .. in a one-based fully-closed coordinate system" *)
| OutOfBounds                 (* "is outside the bounds of the parent range length" *)
| MalformedAssemblySequence   (* "invalid assembly+sequence structure" / "invalid number of ':'" *)
| EmptySequenceId.            (* "does not have a sequence identifier" *)

Inductive Result (A : Type) :=
| Ok (a : A)
| Err (e : Error)
| Panic.
Arguments Ok {A} a.
Arguments Err {A} e.
Arguments Panic {A}.

Definition bind {A B} (m : Result A) (f : A -> Result B) : Result B :=
  match m with
  | Ok a => f a
  | Err e => Err e
  | Panic => Panic
  end.

Notation "x <- m ;; k" := (bind m (fun x => k))
  (at level 61, m at next level, right associativity).

(** ** usize arithmetic (debug build: overflow checks on) *)

Definition usize_max : N := 2 ^ 64 - 1.

Definition checked_add (a b : N) : Result N :=
  if (a + b <=? usize_max)%N then Ok (a + b)%N else Panic.

Definition checked_sub (a b : N) : Result N :=
  if (b <=? a)%N then Ok (a - b)%N else Panic.

(** ** Characters *)

Definition colon : ascii := ":".
Definition hyphen : ascii := "-".
Definition underscore : ascii := "_".
Definition plus : ascii := "+".
Definition letter_R : ascii := "R".
Definition newline : ascii := "010".

Definition is_digit (c : ascii) : bool :=
  let n := nat_of_ascii c in (48 <=? n) && (n <=? 57).

(** [char::is_whitespace] restricted to ASCII: TAB, LF, VT, FF, CR, SPACE. *)
Definition is_whitespace (c : ascii) : bool :=
  let n := nat_of_ascii c in ((9 <=? n) && (n <=? 13)) || (n =? 32).

(** ** Decimal numbers: [str::parse::<usize>] and [Display for usize] *)

Definition digit_of (c : ascii) (u : Decimal.uint) : Decimal.uint :=
  match nat_of_ascii c - 48 with
  | 0 => Decimal.D0 u | 1 => Decimal.D1 u | 2 => Decimal.D2 u
  | 3 => Decimal.D3 u | 4 => Decimal.D4 u | 5 => Decimal.D5 u
  | 6 => Decimal.D6 u | 7 => Decimal.D7 u | 8 => Decimal.D8 u
  | _ => Decimal.D9 u
  end.

Fixpoint uint_of_digits (s : str) : Decimal.uint :=
  match s with
  | [] => Decimal.Nil
  | c :: s' => digit_of c (uint_of_digits s')
  end.

Fixpoint digits_of_uint (u : Decimal.uint) : str :=
  match u with
  | Decimal.Nil => []
  | Decimal.D0 u => "0"%char :: digits_of_uint u
  | Decimal.D1 u => "1"%char :: digits_of_uint u
  | Decimal.D2 u => "2"%char :: digits_of_uint u
  | Decimal.D3 u => "3"%char :: digits_of_uint u
  | Decimal.D4 u => "4"%char :: digits_of_uint u
  | Decimal.D5 u => "5"%char :: digits_of_uint u
  | Decimal.D6 u => "6"%char :: digits_of_uint u
  | Decimal.D7 u => "7"%char :: digits_of_uint u
  | Decimal.D8 u => "8"%char :: digits_of_uint u
  | Decimal.D9 u => "9"%char :: digits_of_uint u
  end.

(** [format!("{}", n)] for a [usize]. *)
Definition show_usize (n : N) : str := digits_of_uint (N.to_uint n).

(** [captures[i].parse::<usize>().unwrap()] on a run of ASCII digits:
    a value above [usize::MAX] makes [parse] fail and [unwrap] panic. *)
Definition parse_usize (d : str) : Result N :=
  let n := N.of_uint (uint_of_digits d) in
  if (n <=? usize_max)%N then Ok n else Panic.

(** ** Regular expressions

    Both regexes have the shape [( . * )(S1)(\d+)(S2)(\d+)((_)(O))?$]. The tail
    after group 1 parses in at most one way: a digit run is always followed
    by a non-digit or by the end of the text. *)

Record Caps := mkCaps {
  cap_sep1 : ascii;            (* group 3 *)
  cap_start : str;             (* group 4 *)
  cap_sep2 : ascii;            (* group 5 *)
  cap_end : str;               (* group 6 *)
  cap_orient : option ascii    (* group 9, present iff group 7 matched *)
}.

Fixpoint take_digits (s : str) : str * str :=
  match s with
  | [] => ([], [])
  | c :: s' =>
      if is_digit c then let (d, r) := take_digits s' in (c :: d, r)
      else ([], s)
  end.

Section Regex.
Variables is_sep1 is_sep2 is_orient : ascii -> bool.

(** The part of the regex after group 1, anchored at both ends. *)
Definition tail_match (r : str) : option Caps :=
  match r with
  | c1 :: r1 =>
      if is_sep1 c1 then
        match take_digits r1 with
        | ([], _) => None
        | (_, []) => None
        | (d1, c2 :: r2) =>
            if is_sep2 c2 then
              match take_digits r2 with
              | ([], _) => None
              | (d2, []) => Some (mkCaps c1 d1 c2 d2 None)
              | (d2, [u; o]) =>
                  if Ascii.eqb u underscore && is_orient o
                  then Some (mkCaps c1 d1 c2 d2 (Some o)) else None
              | _ => None
              end
            else None
        end
      else None
  | [] => None
  end.

(** A match starting at the head of [s]: the greedy group 1, [( . * )], tries the
    longest prefix first and cannot pass a newline. *)
Fixpoint scan (s : str) : option (str * Caps) :=
  let here := option_map (fun k => ([], k)) (tail_match s) in
  match s with
  | [] => here
  | c :: s' =>
      if Ascii.eqb c newline then here
      else match scan s' with
           | Some (p, k) => Some (c :: p, k)
           | None => here
           end
  end.

(** [Regex::captures]: the leftmost start position with a match wins.
    The text before it is not part of group 1. *)
Fixpoint captures (s : str) : option (str * Caps) :=
  match scan s with
  | Some m => Some m
  | None => match s with [] => None | _ :: s' => captures s' end
  end.
End Regex.

(** The regex [( . * )(([:])(\d+)([-])(\d+)((_)([+\-]))?)$] of [parse_id]. *)
Definition is_pm (c : ascii) : bool := Ascii.eqb c plus || Ascii.eqb c hyphen.
Definition captures_v2 : str -> option (str * Caps) :=
  captures (Ascii.eqb colon) (Ascii.eqb hyphen) is_pm.

(** The regex [( . * )(([:_])(\d+)([-_])(\d+)((_)([R+\-]))?)$] of [convert_id]. *)
Definition captures_any : str -> option (str * Caps) :=
  captures (fun c => Ascii.eqb c colon || Ascii.eqb c underscore)
           (fun c => Ascii.eqb c hyphen || Ascii.eqb c underscore)
           (fun c => Ascii.eqb c letter_R || is_pm c).

(** ** String helpers *)

(** [str::split(':')], collected into a [Vec<&str>]. *)
Fixpoint split_colon (s : str) : list str :=
  match s with
  | [] => [[]]
  | c :: s' =>
      let parts := split_colon s' in
      if Ascii.eqb c colon then [] :: parts
      else match parts with
           | p :: ps => (c :: p) :: ps
           | [] => [[c]]
           end
  end.

(** [str::matches(':').count()]. *)
Definition count_colon (s : str) : nat :=
  length (filter (Ascii.eqb colon) s).

(** ** [parse_id] *)

(** The [while let Some(captures) = re.captures(&id_str)] loop. [ranges]
    is the [Vec] in push order, innermost range first. The fuel is
    [length id_str + 1]; each step shortens the text. *)
Fixpoint parse_loop (fuel : nat) (id_str : str) (ranges : list Range)
  : Result (str * list Range) :=
  match fuel with
  | O => Panic
  | S fuel' =>
      match captures_v2 id_str with
      | None => Ok (id_str, ranges)
      | Some (pre, k) =>
          start <- parse_usize (cap_start k) ;;
          end_ <- parse_usize (cap_end k) ;;
          orientation <- match cap_orient k with
                         | Some o => Ok o
                         | None => Panic   (* captures[9] on an unmatched group *)
                         end ;;
          if (end_ <? start)%N then Err DecreasingRange
          else parse_loop fuel' pre (ranges ++ [mkRange start end_ orientation])
      end
  end.

(** The code after the loop: split off the assembly, check the sequence. *)
Definition parse_finish (id_str : str) (ranges : list Range) : Result Identifier :=
  match
    match split_colon id_str with
    | [a; q] => Ok (Some a, q)
    | [q] => Ok (None, q)
    | _ => Err MalformedAssemblySequence
    end
  with
  | Ok (assembly_id, sequence_id) =>
      match sequence_id with
      | [] => Err EmptySequenceId
      | _ => Ok (mkIdentifier assembly_id sequence_id (rev ranges) V2)
      end
  | Err e => Err e
  | Panic => Panic
  end.

Definition parse_id (id : str) : Result Identifier :=
  p <- parse_loop (S (length id)) id [] ;;
  let (id_str, ranges) := p in
  parse_finish id_str ranges.

Definition from_v2 (id : str) : Result Identifier := parse_id id.

(** String literals of the tests. *)
Definition lit (s : string) : str := list_ascii_of_string s.

(** ** [Display for Identifier] *)

(** [format!(":{}-{}_{}", range.start, range.end, range.orientation)]. *)
Definition fmt_range (r : Range) : str :=
  colon :: show_usize (start r) ++ hyphen :: show_usize (end_ r)
        ++ [underscore; orientation r].

Definition render (id : Identifier) : str :=
  match assembly_id id with Some a => a ++ [colon] | None => [] end
  ++ sequence_id id
  ++ match ranges id with
     | [] => []
     | rs => concat (map fmt_range rs)
     end.

(** ** [convert_id] *)

(** The three-way classification of a peeled suffix. *)
Definition range_fmt (k : Caps) : IDVersion :=
  if Ascii.eqb (cap_sep1 k) colon && Ascii.eqb (cap_sep2 k) hyphen
     && match cap_orient k with Some _ => true | None => false end
  then V2
  else if Ascii.eqb (cap_sep1 k) colon && Ascii.eqb (cap_sep2 k) hyphen
  then V1
  else V0.

(** The [match range_fmt { ... }] that orders the pair. *)
Definition order_range (fmt : IDVersion) (start end_ : N) (orientation : ascii)
  : Result Range :=
  match fmt with
  | V0 | V2 =>
      if (end_ <? start)%N then Err DecreasingRange
      else Ok (mkRange start end_ orientation)
  | V1 =>
      if (end_ <? start)%N then Ok (mkRange end_ start hyphen)
      else Ok (mkRange start end_ plus)
  | Undefined => Ok (mkRange start end_ orientation)
  end.

(** The peeling loop of [convert_id]. The state is [inferred_fmt], the
    remaining [sequence_id] and the [ranges] in push order. A suffix whose
    classification differs from [inferred_fmt] ends the loop ([break]). *)
Fixpoint convert_loop (fuel : nat) (zbho : bool) (inferred_fmt : option IDVersion)
  (sequence_id : str) (ranges : list Range)
  : Result (option IDVersion * str * list Range) :=
  match fuel with
  | O => Panic
  | S fuel' =>
      match captures_any sequence_id with
      | None => Ok (inferred_fmt, sequence_id, ranges)
      | Some (pre, k) =>
          start <- parse_usize (cap_start k) ;;
          end_ <- parse_usize (cap_end k) ;;
          let orientation :=
            match cap_orient k with
            | None => plus
            | Some o => if Ascii.eqb o letter_R then hyphen else o
            end in
          start <- (if zbho then checked_add start 1 else Ok start) ;;
          let fmt := range_fmt k in
          let go inferred' :=
            r <- order_range fmt start end_ orientation ;;
            convert_loop fuel' zbho inferred' pre (ranges ++ [r]) in
          match inferred_fmt with
          | Some inferred =>
              if IDVersion_eqb inferred fmt then go inferred_fmt
              else Ok (inferred_fmt, sequence_id, ranges)
          | None => go (Some fmt)
          end
      end
  end.

(** The [match (count, ids.len())] that splits assembly and sequence. *)
Definition convert_split (sequence_id : str) : Result (option str * str) :=
  match count_colon sequence_id, split_colon sequence_id with
  | 1, [a; q] =>
      match a, q with
      | _ :: _, _ :: _ => Ok (Some a, q)
      | _, _ => Err MalformedAssemblySequence
      end
  | 0, [q] =>
      match sequence_id with
      | [] => Err MalformedAssemblySequence
      | _ => Ok (None, sequence_id)
      end
  | _, _ => Err MalformedAssemblySequence
  end.

(** The validation loop [for range in ranges.iter().rev()], which also
    appends each range to [v2_id]. *)
Fixpoint bounds_loop (current_parent_length : option N) (rs : list Range)
  (v2_id : str) : Result str :=
  match rs with
  | [] => Ok v2_id
  | r :: rs' =>
      if (start r =? 0)%N || (end_ r =? 0)%N then Err ZeroCoordinate
      else
        let continue :=
          d <- checked_sub (end_ r) (start r) ;;
          len <- checked_add d 1 ;;
          bounds_loop (Some len) rs' (v2_id ++ fmt_range r) in
        match current_parent_length with
        | Some parent_len =>
            if (parent_len <? start r)%N || (parent_len <? end_ r)%N
            then Err OutOfBounds else continue
        | None => continue
        end
  end.

Definition convert_id (id : str) (zbho : bool) : Result (str * IDVersion) :=
  if existsb is_whitespace id then Err MalformedInput
  else
    p <- convert_loop (S (length id)) zbho None id [] ;;
    let '(inferred_fmt, sequence_id, ranges) := p in
    let inferred_fmt :=
      match ranges with [] => Some Undefined | _ => inferred_fmt end in
    aq <- convert_split sequence_id ;;
    let '(assembly_id, sequence_id) := aq in
    let v2_id :=
      match assembly_id with
      | Some a => a ++ colon :: sequence_id
      | None => sequence_id
      end in
    v2_id <- bounds_loop None (rev ranges) v2_id ;;
    Ok (v2_id, match inferred_fmt with Some v => v | None => Undefined end).

(** ** [normalize_id] *)

Definition render_prefix (id : Identifier) : str :=
  match assembly_id id with Some a => a ++ [colon] | None => [] end
  ++ sequence_id id.

(** One iteration of [for range in self.ranges.iter().rev().skip(1)]. *)
Definition normalize_step (range : Range) (acc : N * N * ascii)
  : Result (N * N * ascii) :=
  let '(start_idx, end_idx, curr_orient) := acc in
  se <- (if Ascii.eqb (orientation range) hyphen then
           a <- checked_sub (end_ range) start_idx ;;
           s <- checked_add a 1 ;;
           b <- checked_sub (end_ range) end_idx ;;
           e <- checked_add b 1 ;;
           Ok (s, e)
         else
           a <- checked_add (start range) start_idx ;;
           s <- checked_sub a 1 ;;
           b <- checked_add (start range) end_idx ;;
           e <- checked_sub b 1 ;;
           Ok (s, e)) ;;
  let curr_orient :=
    if Ascii.eqb (orientation range) hyphen && Ascii.eqb curr_orient hyphen
    then plus
    else if Ascii.eqb (orientation range) hyphen || Ascii.eqb curr_orient plus
    then hyphen
    else curr_orient in
  Ok (fst se, snd se, curr_orient).

Fixpoint normalize_fold (ancestors : list Range) (acc : N * N * ascii)
  : Result (N * N * ascii) :=
  match ancestors with
  | [] => Ok acc
  | r :: rs => acc' <- normalize_step r acc ;; normalize_fold rs acc'
  end.

Definition normalize_id (id : Identifier) : Result str :=
  match rev (ranges id) with
  | [] => Ok (render_prefix id)
  | last :: ancestors =>
      acc <- normalize_fold ancestors (start last, end_ last, orientation last) ;;
      let '(start_idx, end_idx, curr_orient) := acc in
      Ok (render_prefix id ++ colon ::
          if (start_idx <? end_idx)%N
          then show_usize start_idx ++ hyphen :: show_usize end_idx
               ++ [underscore; curr_orient]
          else show_usize end_idx ++ hyphen :: show_usize start_idx
               ++ [underscore; curr_orient])
  end.

(** ** Public API *)

Definition from_unknown_format (id : str) (zbho : bool)
  : Result (Identifier * IDVersion) :=
  p <- convert_id id zbho ;;
  let (v2_id, inferred_version) := p in
  identifier <- parse_id v2_id ;;
  Ok (identifier, inferred_version).

Definition from_v0 (id : str) : Result Identifier :=
  p <- convert_id id false ;; parse_id (fst p).

Definition from_v1 (id : str) : Result Identifier :=
  p <- convert_id id false ;; parse_id (fst p).

Definition normalize (id : Identifier) : Result Identifier :=
  s <- normalize_id id ;; parse_id s.

(** [from_v2] followed by [normalize] and rendering, as in the doc example. *)
Definition normalize_render (s : str) : Result str :=
  i <- from_v2 s ;; j <- normalize i ;; Ok (render j).

(** ** The normaliser's frame change as the spec describes it

    Reference for the spec's words (not the source): for an ancestor [r],
    reflect about [r.end] when [r] is reverse, shift by [r.start] when it
    is forward, over unbounded integers. *)
Definition spec_frame (r : Range) (p : Z * Z) : Z * Z :=
  let '(s, e) := p in
  if Ascii.eqb (orientation r) hyphen
  then (Z.of_N (end_ r) - s + 1, Z.of_N (end_ r) - e + 1)%Z
  else (Z.of_N (start r) + s - 1, Z.of_N (start r) + e - 1)%Z.

Fixpoint spec_fold (ancestors : list Range) (p : Z * Z) : Z * Z :=
  match ancestors with
  | [] => p
  | r :: rs => spec_fold rs (spec_frame r p)
  end.

(** ** Auxiliary predicates *)

Definition nl_free (s : str) : Prop := Forall (fun c => c <> newline) s.

(** The ranges [parse_id] can produce: ordered, within [usize], and
    oriented by ['+'] or ['-']. *)
Definition good_range (r : Range) : Prop :=
  (start r <= end_ r)%N /\ (end_ r <= usize_max)%N /\ is_pm (orientation r) = true.

Fixpoint join_colon (parts : list str) : str :=
  match parts with
  | [] => []
  | [p] => p
  | p :: ps => p ++ colon :: join_colon ps
  end.

(** The chain of the library's doc example,
    ["hg38:chr1:100-200_+:10-50_-:1-5_+"]. *)
Definition example_chain : Identifier :=
  mkIdentifier (Some (lit "hg38")) (lit "chr1")
    [mkRange 100 200 "+"; mkRange 10 50 "-"; mkRange 1 5 "+"] V2.

(** A chain, outermost first, in which every range lies within the length
    [end - start + 1] of the range before it (start and end alike). *)
Fixpoint nested_within (parent_len : option N) (rs : list Range) : Prop :=
  match rs with
  | [] => True
  | r :: rs' =>
      match parent_len with
      | Some pl => (start r <= pl)%N /\ (end_ r <= pl)%N
      | None => True
      end /\ nested_within (Some (end_ r - start r + 1)%N) rs'
  end.

(** * Claims evaluated at concrete inputs *)

(** C1 (code defect): composing two forward ranges yields a reverse
    orientation, because the second branch tests [curr_orient == '+']. *)
Theorem C1_forward_forward_is_reverse :
  normalize_render (lit "chr1:100-200_+:10-50_+") = Ok (lit "chr1:109-149_-").
Proof. vm_compute. reflexivity. Qed.

(** C2 (code defect): a chain accepted by [from_v2] whose inner range lies
    beyond its reverse parent makes the reflect step subtract
    [5 - 10] in [usize]: [normalize] panics instead of returning. *)
Theorem C2_normalize_underflow_panics :
  exists i, from_v2 (lit "s:1-5_-:10-20_+") = Ok i /\ normalize i = Panic.
Proof. eexists. split; [vm_compute; reflexivity | vm_compute; reflexivity]. Qed.

(** C3 (code defect): the regex of [parse_id] makes the orientation group
    optional, yet [captures[9]] is indexed unconditionally, so a tail
    [:digits-digits] without a marker panics. *)
Theorem C3_unmarked_tail_panics :
  from_v2 (lit "chr1:1-200") = Panic.
Proof. vm_compute. reflexivity. Qed.

(** C6 (code defect): [convert_id] stops at the V2-looking suffix [:1-2_+]
    and keeps it in the sequence text, but [parse_id] then peels it as a
    range: the result nests [3-4] inside a range of length 2. *)
Theorem C6_from_unknown_out_of_bounds :
  from_unknown_format (lit "x:1-2_+:3-4") false
  = Ok (mkIdentifier None (lit "x") [mkRange 1 2 "+"; mkRange 3 4 "+"] V2, V1).
Proof. vm_compute. reflexivity. Qed.

(** C8: [from_v2] accepts an empty assembly half. *)
Lemma C8_empty_assembly_accepted :
  from_v2 (lit ":chr1") = Ok (mkIdentifier (Some []) (lit "chr1") [] V2).
Proof. vm_compute. reflexivity. Qed.

(** * General lemmas *)

Ltac break_match_in H :=
  match type of H with
  | context [match ?x with _ => _ end] =>
      let E := fresh "E" in destruct x eqn:E
  end.

Ltac break_match :=
  match goal with
  | |- context [match ?x with _ => _ end] =>
      let E := fresh "E" in destruct x eqn:E
  end.

(** ** Decimal numbers *)

Lemma uint_digits_roundtrip u : uint_of_digits (digits_of_uint u) = u.
Proof. induction u; simpl; rewrite ?IHu; reflexivity. Qed.

Lemma parse_show_usize n :
  (n <= usize_max)%N -> parse_usize (show_usize n) = Ok n.
Proof.
  intros H. unfold parse_usize, show_usize.
  rewrite uint_digits_roundtrip, DecimalN.Unsigned.of_to.
  apply N.leb_le in H. rewrite H. reflexivity.
Qed.

Lemma parse_usize_bound d n : parse_usize d = Ok n -> (n <= usize_max)%N.
Proof.
  unfold parse_usize. destruct (N.leb_spec (N.of_uint (uint_of_digits d)) usize_max);
    intros E; inversion E; subst; assumption.
Qed.

Lemma digits_of_uint_digits u : Forall (fun c => is_digit c = true) (digits_of_uint u).
Proof. induction u; simpl; constructor; auto. Qed.

Lemma show_usize_digits n : Forall (fun c => is_digit c = true) (show_usize n).
Proof. apply digits_of_uint_digits. Qed.

Lemma show_usize_nonempty n : show_usize n <> [].
Proof.
  unfold show_usize. intros H.
  destruct (N.to_uint n) eqn:E; simpl in H; try discriminate.
  pose proof (DecimalN.Unsigned.of_to n) as Ho. rewrite E in Ho.
  vm_compute in Ho. subst n. vm_compute in E. discriminate E.
Qed.

Lemma take_digits_app ds rest :
  Forall (fun c => is_digit c = true) ds ->
  match rest with [] => True | c :: _ => is_digit c = false end ->
  take_digits (ds ++ rest) = (ds, rest).
Proof.
  induction ds as [|d ds IH]; intros Hd Hr; simpl.
  - destruct rest as [|c rest]; simpl; [reflexivity|]. rewrite Hr. reflexivity.
  - inversion Hd; subst. rewrite H1, IH by assumption. reflexivity.
Qed.

(** ** The regex engine *)

Section RegexFacts.
Variables is_sep1 is_sep2 is_orient : ascii -> bool.

Lemma tail_match_nonempty t k :
  tail_match is_sep1 is_sep2 is_orient t = Some k -> t <> [].
Proof. destruct t; simpl; [discriminate | congruence]. Qed.

Lemma tail_match_orient t k o :
  tail_match is_sep1 is_sep2 is_orient t = Some k ->
  cap_orient k = Some o -> is_orient o = true.
Proof.
  unfold tail_match. intros H Ho.
  repeat (break_match_in H; try discriminate);
    inversion H; subst; simpl in Ho; try discriminate.
  inversion Ho; subst.
  match goal with
  | Hb : (_ && is_orient _) = true |- _ => apply andb_prop in Hb as [_ Hb]; exact Hb
  end.
Qed.

Lemma scan_inv s p k :
  scan is_sep1 is_sep2 is_orient s = Some (p, k) ->
  exists t, s = p ++ t /\ tail_match is_sep1 is_sep2 is_orient t = Some k /\ nl_free p.
Proof.
  revert p k. induction s as [|c s IH]; intros p k H; cbn [scan] in H.
  - destruct (tail_match _ _ _ []) eqn:Ht; discriminate.
  - destruct (Ascii.eqb_spec c newline).
    + destruct (tail_match _ _ _ (c :: s)) eqn:Ht; [|discriminate].
      simpl in H. injection H as <- <-.
      exists (c :: s). repeat split; auto. constructor.
    + destruct (scan _ _ _ s) as [[p' k']|] eqn:Hs.
      * injection H as <- <-. destruct (IH p' k' eq_refl) as (t & -> & Ht & Hn).
        exists t. repeat split; auto. constructor; assumption.
      * destruct (tail_match _ _ _ (c :: s)) eqn:Ht; [|discriminate].
        simpl in H. injection H as <- <-.
        exists (c :: s). repeat split; auto. constructor.
Qed.

Lemma captures_inv s p k :
  captures is_sep1 is_sep2 is_orient s = Some (p, k) ->
  exists u t, s = u ++ p ++ t /\ tail_match is_sep1 is_sep2 is_orient t = Some k
              /\ nl_free p.
Proof.
  induction s as [|c s IH]; intros H; cbn [captures] in H.
  - destruct (scan _ _ _ []) eqn:Hs; [|discriminate].
    inversion H; subst. destruct (scan_inv _ _ _ Hs) as (t & Ht & Hm & Hn).
    exists [], t. auto.
  - destruct (scan _ _ _ (c :: s)) as [m|] eqn:Hs.
    + inversion H; subst. destruct (scan_inv _ _ _ Hs) as (t & Ht & Hm & Hn).
      exists [], t. auto.
    + destruct (IH H) as (u & t & -> & Ht & Hn). exists (c :: u), t. auto.
Qed.

Lemma captures_shorter s p k :
  captures is_sep1 is_sep2 is_orient s = Some (p, k) -> length p < length s.
Proof.
  intros H. destruct (captures_inv _ _ _ H) as (u & t & -> & Ht & _).
  apply tail_match_nonempty in Ht. destruct t; [congruence|].
  rewrite !length_app. simpl. lia.
Qed.
End RegexFacts.

Lemma captures_scan p1 p2 p3 s m :
  scan p1 p2 p3 s = Some m -> captures p1 p2 p3 s = Some m.
Proof. intros H; destruct s; cbn [captures]; rewrite H; reflexivity. Qed.

Local Abbreviation tail_v2 := (tail_match (Ascii.eqb colon) (Ascii.eqb hyphen) is_pm).
Local Abbreviation scan_v2 := (scan (Ascii.eqb colon) (Ascii.eqb hyphen) is_pm).

Lemma scan_v2_no_colon t : Forall (fun c => c <> colon) t -> scan_v2 t = None.
Proof.
  induction t as [|c t IH]; intros H; cbn [scan]; [reflexivity|].
  inversion H; subst.
  assert (Ht : tail_v2 (c :: t) = None).
  { unfold tail_match. destruct (Ascii.eqb_spec colon c); [congruence | reflexivity]. }
  rewrite Ht, IH by assumption.
  destruct (Ascii.eqb c newline); reflexivity.
Qed.

Lemma digit_not_special c : is_digit c = true -> c <> colon /\ c <> newline.
Proof. intros Hd; split; intros ->; vm_compute in Hd; discriminate. Qed.

Lemma pm_not_special c : is_pm c = true -> c <> colon /\ c <> newline.
Proof. intros Hd; split; intros ->; vm_compute in Hd; discriminate. Qed.

Lemma fmt_range_tail_special r :
  is_pm (orientation r) = true ->
  Forall (fun c => c <> colon /\ c <> newline)
    (show_usize (start r) ++ hyphen :: show_usize (end_ r) ++ [underscore; orientation r]).
Proof.
  intros Ho.
  assert (Hd : forall n, Forall (fun c => c <> colon /\ c <> newline) (show_usize n)).
  { intros n. eapply Forall_impl; [|apply show_usize_digits]. apply digit_not_special. }
  apply Forall_app; split; [apply Hd|].
  constructor; [split; discriminate|].
  apply Forall_app; split; [apply Hd|].
  constructor; [split; discriminate|].
  constructor; [apply pm_not_special; assumption | constructor].
Qed.

Lemma nl_free_fmt_range r : is_pm (orientation r) = true -> nl_free (fmt_range r).
Proof.
  intros Ho. unfold nl_free, fmt_range. constructor; [discriminate|].
  apply Forall_impl with (P := fun c => c <> colon /\ c <> newline); [tauto|].
  apply fmt_range_tail_special; assumption.
Qed.

Lemma nl_free_app x y : nl_free x -> nl_free y -> nl_free (x ++ y).
Proof. unfold nl_free. intros; apply Forall_app; auto. Qed.

Lemma nl_free_concat_fmt rs :
  Forall good_range rs -> nl_free (concat (map fmt_range rs)).
Proof.
  induction rs as [|r rs IH]; intros H; cbn [map concat]; [constructor|].
  inversion H as [|? ? [_ [_ Ho]] Hrs]; subst.
  apply nl_free_app; [apply nl_free_fmt_range; assumption | auto].
Qed.

Lemma tail_v2_fmt_range r :
  is_pm (orientation r) = true ->
  tail_v2 (fmt_range r)
  = Some (mkCaps colon (show_usize (start r)) hyphen (show_usize (end_ r))
                 (Some (orientation r))).
Proof.
  intros Ho. unfold fmt_range, tail_match.
  replace (Ascii.eqb colon colon) with true by reflexivity.
  rewrite take_digits_app by (apply show_usize_digits || reflexivity).
  pose proof (show_usize_nonempty (start r)) as N1.
  destruct (show_usize (start r)) as [|a1 l1]; [congruence|].
  replace (Ascii.eqb hyphen hyphen) with true by reflexivity.
  rewrite take_digits_app by (apply show_usize_digits || reflexivity).
  pose proof (show_usize_nonempty (end_ r)) as N2.
  destruct (show_usize (end_ r)) as [|a2 l2]; [congruence|].
  replace (Ascii.eqb underscore underscore) with true by reflexivity.
  rewrite Ho. reflexivity.
Qed.

Lemma scan_v2_app x t k :
  nl_free x -> Forall (fun c => c <> colon) t -> tail_v2 (colon :: t) = Some k ->
  scan_v2 (x ++ colon :: t) = Some (x, k).
Proof.
  unfold nl_free. induction x as [|c x IH]; intros Hx Ht Hk; simpl app; cbn [scan].
  - replace (Ascii.eqb colon newline) with false by reflexivity.
    rewrite scan_v2_no_colon by assumption. rewrite Hk. reflexivity.
  - inversion Hx; subst.
    destruct (Ascii.eqb_spec c newline); [contradiction|].
    rewrite IH by assumption. reflexivity.
Qed.

Lemma captures_v2_app x r :
  nl_free x -> is_pm (orientation r) = true ->
  captures_v2 (x ++ fmt_range r)
  = Some (x, mkCaps colon (show_usize (start r)) hyphen (show_usize (end_ r))
                    (Some (orientation r))).
Proof.
  intros Hx Ho. unfold captures_v2. apply captures_scan.
  apply scan_v2_app; [assumption | | apply tail_v2_fmt_range; assumption].
  apply Forall_impl with (P := fun c => c <> colon /\ c <> newline); [tauto|].
  apply fmt_range_tail_special; assumption.
Qed.

(** ** The loop of [parse_id] *)

Lemma parse_loop_fuel f1 f2 s acc :
  length s < f1 -> length s < f2 -> parse_loop f1 s acc = parse_loop f2 s acc.
Proof.
  revert f2 s acc. induction f1 as [|f1 IH]; intros f2 s acc H1 H2; [lia|].
  destruct f2 as [|f2]; [lia|]. cbn [parse_loop].
  destruct (captures_v2 s) as [[p k]|] eqn:Hc; [|reflexivity].
  unfold captures_v2 in Hc. apply captures_shorter in Hc.
  destruct (parse_usize (cap_start k)); cbn [bind]; try reflexivity.
  destruct (parse_usize (cap_end k)); cbn [bind]; try reflexivity.
  destruct (cap_orient k); cbn [bind]; try reflexivity.
  destruct (_ <? _)%N; [reflexivity|]. apply IH; lia.
Qed.

Lemma parse_loop_inv f s acc rem rs :
  parse_loop f s acc = Ok (rem, rs) ->
  captures_v2 rem = None /\
  exists nw, rs = acc ++ nw /\ Forall good_range nw /\
             (nw = [] -> rem = s) /\ (nw <> [] -> nl_free rem).
Proof.
  revert s acc. induction f as [|f IH]; intros s acc H; cbn [parse_loop] in H;
    [discriminate|].
  destruct (captures_v2 s) as [[p k]|] eqn:Hc.
  2:{ injection H as <- <-. split; [assumption|]. exists [].
      rewrite app_nil_r. repeat split; auto; congruence. }
  destruct (parse_usize (cap_start k)) as [st| |] eqn:Hs; cbn [bind] in H; try discriminate.
  destruct (parse_usize (cap_end k)) as [en| |] eqn:He; cbn [bind] in H; try discriminate.
  destruct (cap_orient k) as [o|] eqn:Ho; cbn [bind] in H; try discriminate.
  destruct (N.ltb_spec en st); [discriminate|].
  unfold captures_v2 in Hc.
  destruct (captures_inv _ _ _ _ _ _ Hc) as (u & t & _ & Ht & Hp).
  destruct (IH _ _ H) as [Hn [nw' [Hrs [Hg [Hemp Hnl]]]]].
  split; [assumption|]. exists (mkRange st en o :: nw'). repeat split.
  - rewrite Hrs, <- app_assoc. reflexivity.
  - constructor; [|assumption]. repeat split; simpl.
    + assumption.
    + eapply parse_usize_bound; eassumption.
    + eapply tail_match_orient; eassumption.
  - discriminate.
  - intros _. destruct nw' as [|r nw'].
    + rewrite (Hemp eq_refl). assumption.
    + apply Hnl. discriminate.
Qed.

(** Rendering the ranges after a text the regex does not match, and
    parsing again, peels exactly those ranges. *)
Lemma parse_loop_render rem rs acc :
  captures_v2 rem = None -> (rs <> [] -> nl_free rem) -> Forall good_range rs ->
  let txt := rem ++ concat (map fmt_range (rev rs)) in
  parse_loop (S (length txt)) txt acc = Ok (rem, acc ++ rs).
Proof.
  intros Hc. revert acc. induction rs as [|r rs IH]; intros acc Hn Hg txt; subst txt.
  - cbn [rev map concat]. rewrite !app_nil_r. cbn [parse_loop]. rewrite Hc. reflexivity.
  - inversion Hg as [|? ? Hr Hrs]; subst.
    assert (Hx : nl_free (rem ++ concat (map fmt_range (rev rs)))).
    { apply nl_free_app; [apply Hn; discriminate|].
      apply nl_free_concat_fmt. apply Forall_rev. assumption. }
    destruct r as [st en o]. destruct Hr as (Hle & Hmax & Ho). simpl in Hle, Hmax, Ho.
    cbn [rev]. rewrite map_app, concat_app. cbn [map concat]. rewrite app_nil_r, app_assoc.
    cbn [parse_loop]. rewrite captures_v2_app by assumption.
    cbn [bind cap_start cap_end cap_orient start end_ orientation].
    rewrite (parse_show_usize st) by (eapply N.le_trans; eassumption).
    rewrite (parse_show_usize en) by assumption. cbn [bind].
    destruct (N.ltb_spec en st); [lia|].
    rewrite parse_loop_fuel with (f2 := S (length (rem ++ concat (map fmt_range (rev rs))))).
    + rewrite IH; [rewrite <- app_assoc; reflexivity | | assumption].
      intros _. apply Hn. discriminate.
    + rewrite (length_app _ (fmt_range (mkRange st en o))).
      unfold fmt_range. cbn [length]. lia.
    + lia.
Qed.

(** ** Splitting on [':'] *)

Lemma split_colon_nonempty s : split_colon s <> [].
Proof.
  induction s as [|c s IH]; simpl; [discriminate|].
  destruct (Ascii.eqb c colon); [discriminate|].
  destruct (split_colon s); discriminate.
Qed.

Lemma join_colon_cons (c : ascii) (p : str) (ps : list str) : join_colon ((c :: p) :: ps) = c :: join_colon (p :: ps).
Proof. destruct ps; reflexivity. Qed.

Lemma join_split_colon s : join_colon (split_colon s) = s.
Proof.
  induction s as [|c s IH]; [reflexivity|]. cbn [split_colon].
  pose proof (split_colon_nonempty s) as Hn.
  destruct (Ascii.eqb_spec c colon) as [->|_];
    destruct (split_colon s) as [|p ps]; try congruence.
  - simpl. f_equal. exact IH.
  - cbv beta iota. rewrite join_colon_cons. f_equal. exact IH.
Qed.

Lemma parse_finish_prefix rem rs i :
  parse_finish rem rs = Ok i -> render_prefix i = rem /\ ranges i = rev rs.
Proof.
  unfold parse_finish. pose proof (join_split_colon rem) as J.
  destruct (split_colon rem) as [|a [|q [|x l]]]; try discriminate; simpl in J; subst rem.
  - destruct a; intros H; [discriminate|]. injection H as <-. split; reflexivity.
  - destruct q; intros H; [discriminate|]. injection H as <-.
    unfold render_prefix. simpl. rewrite <- app_assoc. split; reflexivity.
Qed.

Lemma render_eq i : render i = render_prefix i ++ concat (map fmt_range (ranges i)).
Proof. unfold render, render_prefix. rewrite <- app_assoc. destruct (ranges i); reflexivity. Qed.

(** * Claims: general theorems *)

(** C9: every identifier produced by [from_v2], once rendered, parses back
    with [from_v2] to the same identifier (same assembly, sequence, ranges
    and version tag). *)
Theorem C9_from_v2_render_roundtrip s i :
  from_v2 s = Ok i -> from_v2 (render i) = Ok i.
Proof.
  unfold from_v2, parse_id. intros H.
  destruct (parse_loop (S (length s)) s []) as [[rem rs]| |] eqn:Hl;
    cbn [bind] in H; try discriminate.
  destruct (parse_loop_inv _ _ _ _ _ Hl) as [Hc [nw [Hrs [Hg [_ Hnl]]]]].
  cbn [app] in Hrs. subst rs.
  destruct (parse_finish_prefix _ _ _ H) as [Hp Hr].
  rewrite render_eq, Hp, Hr.
  rewrite (parse_loop_render rem nw []) by assumption.
  cbn [bind app]. exact H.
Qed.

(** ** The normaliser *)

Lemma normalize_step_spec r s e o s' e' o' :
  normalize_step r (s, e, o) = Ok (s', e', o') ->
  spec_frame r (Z.of_N s, Z.of_N e) = (Z.of_N s', Z.of_N e').
Proof.
  unfold normalize_step, spec_frame, checked_add, checked_sub. intros H.
  destruct (Ascii.eqb (orientation r) hyphen);
    repeat (break_match_in H; cbn [bind] in H; try discriminate);
    injection H as <- <- _; cbn [fst snd];
    repeat match goal with
           | E : (_ <=? _)%N = true |- _ => apply N.leb_le in E
           end;
    f_equal; lia.
Qed.

Lemma normalize_fold_spec ancestors s e o s' e' o' :
  normalize_fold ancestors (s, e, o) = Ok (s', e', o') ->
  spec_fold ancestors (Z.of_N s, Z.of_N e) = (Z.of_N s', Z.of_N e').
Proof.
  revert s e o. induction ancestors as [|r rs IH]; intros s e o H; cbn [normalize_fold] in H.
  - injection H as <- <- _. reflexivity.
  - destruct (normalize_step r (s, e, o)) as [[[s1 e1] o1]| |] eqn:Hs;
      cbn [bind] in H; try discriminate.
    cbn [spec_fold]. rewrite (normalize_step_spec _ _ _ _ _ _ _ Hs). eapply IH. exact H.
Qed.

(** C4: whenever [normalize_id] returns, its single range is the spec's
    fold (reflect about [r.end] for a reverse ancestor, shift by [r.start]
    for a forward one), applied from the innermost range outward and
    rendered smaller coordinate first; the doc example renders
    ["hg38:chr1:145-149_-"]. *)
Theorem C4_normalize_frame_composition :
  (forall id inner ancestors out,
     rev (ranges id) = inner :: ancestors ->
     normalize_id id = Ok out ->
     exists s e o,
       spec_fold ancestors (Z.of_N (start inner), Z.of_N (end_ inner))
         = (Z.of_N s, Z.of_N e) /\
       out = render_prefix id ++ colon :: show_usize (N.min s e) ++ hyphen
               :: show_usize (N.max s e) ++ [underscore; o]) /\
  normalize_render (lit "hg38:chr1:100-200_+:10-50_-:1-5_+")
    = Ok (lit "hg38:chr1:145-149_-").
Proof.
  split; [|vm_compute; reflexivity].
  intros id inner ancestors out Hrev H. unfold normalize_id in H. rewrite Hrev in H.
  destruct (normalize_fold ancestors (start inner, end_ inner, orientation inner))
    as [[[s e] o]| |] eqn:Hf; cbn [bind] in H; try discriminate.
  injection H as <-. exists s, e, o. split.
  - eapply normalize_fold_spec. exact Hf.
  - destruct (N.ltb_spec s e).
    + rewrite N.min_l, N.max_r by lia. reflexivity.
    + rewrite N.min_r, N.max_l by lia. reflexivity.
Qed.

(** ** The converter *)

(** The converting entry points [from_unknown_format], [from_v0] and
    [from_v1] reject any input with a whitespace character. *)
Theorem converters_reject_whitespace id zbho :
  existsb is_whitespace id = true ->
  from_unknown_format id zbho = Err MalformedInput /\
  from_v0 id = Err MalformedInput /\ from_v1 id = Err MalformedInput.
Proof.
  intros H. unfold from_unknown_format, from_v0, from_v1, convert_id.
  rewrite H. repeat split; reflexivity.
Qed.



(** C10: once the first suffix has fixed the grammar, a suffix classified
    differently ends the loop with no error: the text, that suffix
    included, is what [convert_id] splits into assembly and sequence. *)
Theorem C10_inconsistent_suffix_stops_peeling :
  (forall fuel zbho inferred s rs pre k st en,
     captures_any s = Some (pre, k) ->
     parse_usize (cap_start k) = Ok st ->
     parse_usize (cap_end k) = Ok en ->
     (zbho = true -> (st + 1 <= usize_max)%N) ->
     IDVersion_eqb inferred (range_fmt k) = false ->
     convert_loop (S fuel) zbho (Some inferred) s rs = Ok (Some inferred, s, rs)) /\
  convert_id (lit "seq_1_2:3-4") false = Ok (lit "seq_1_2:3-4_+", V1).
Proof.
  split; [|vm_compute; reflexivity].
  intros fuel zbho inferred s rs pre k st en Hc Hs He Hz Hf.
  cbn [convert_loop]. rewrite Hc, Hs, He. cbn [bind].
  destruct zbho.
  - unfold checked_add. apply N.leb_le in Hz; [|reflexivity]. rewrite Hz. cbn [bind].
    rewrite Hf. reflexivity.
  - cbn [bind]. rewrite Hf. reflexivity.
Qed.

(** ** The parser's assembly split *)

Lemma split_colon_length s : length (split_colon s) = S (count_colon s).
Proof.
  unfold count_colon. induction s as [|c s IH]; [reflexivity|]. cbn [split_colon filter].
  pose proof (split_colon_nonempty s) as Hn.
  destruct (Ascii.eqb_spec c colon) as [->|Hne].
  - rewrite Ascii.eqb_refl. cbn [length]. rewrite IH. reflexivity.
  - destruct (Ascii.eqb_spec colon c); [congruence|].
    destruct (split_colon s) as [|p ps]; [congruence|]. exact IH.
Qed.

Lemma split_colon_none s : count_colon s = 0 -> split_colon s = [s].
Proof.
  unfold count_colon. induction s as [|c s IH]; intros H; [reflexivity|].
  cbn [filter] in H. cbn [split_colon].
  destruct (Ascii.eqb_spec colon c); [discriminate|].
  destruct (Ascii.eqb_spec c colon); [congruence|]. rewrite IH by exact H. reflexivity.
Qed.

Lemma split_colon_one a q :
  count_colon a = 0 -> count_colon q = 0 -> split_colon (a ++ colon :: q) = [a; q].
Proof.
  intros Ha Hq. unfold count_colon in Ha. induction a as [|c a IH].
  - cbn [app split_colon]. rewrite Ascii.eqb_refl, split_colon_none by exact Hq. reflexivity.
  - cbn [filter] in Ha. cbn [app split_colon].
    destruct (Ascii.eqb_spec colon c); [discriminate|].
    destruct (Ascii.eqb_spec c colon); [congruence|]. rewrite IH by exact Ha. reflexivity.
Qed.

(** C8 (as the code does it): after peeling, two or more [':'] fail with
    [MalformedAssemblySequence]; with exactly one, an empty assembly half
    is accepted and only an empty sequence half fails, with
    [EmptySequenceId]; with none, only an empty text fails. *)
Theorem C8_from_v2_assembly_split id rem rs :
  parse_loop (S (length id)) id [] = Ok (rem, rs) ->
  (2 <= count_colon rem -> from_v2 id = Err MalformedAssemblySequence) /\
  (forall a q, rem = a ++ colon :: q -> count_colon a = 0 -> count_colon q = 0 ->
     from_v2 id = match q with
                  | [] => Err EmptySequenceId
                  | _ => Ok (mkIdentifier (Some a) q (rev rs) V2)
                  end) /\
  (count_colon rem = 0 ->
     from_v2 id = match rem with
                  | [] => Err EmptySequenceId
                  | _ => Ok (mkIdentifier None rem (rev rs) V2)
                  end).
Proof.
  intros Hl. unfold from_v2, parse_id. rewrite Hl. cbn [bind]. unfold parse_finish.
  repeat split.
  - intros H2. pose proof (split_colon_length rem) as Hlen.
    destruct (split_colon rem) as [|x [|y [|z l]]]; cbn [length] in Hlen; try lia.
    reflexivity.
  - intros a q -> Ha Hq. rewrite split_colon_one by assumption.
    destruct q; reflexivity.
  - intros H0. rewrite split_colon_none by assumption. destruct rem; reflexivity.
Qed.

(** * Witnesses: the theorems above applied at concrete inputs *)

Lemma C4_normalize_frame_composition_witness :
  rev (ranges example_chain) = [mkRange 1 5 "+"; mkRange 10 50 "-"; mkRange 100 200 "+"] /\
  normalize_id example_chain = Ok (lit "hg38:chr1:145-149_-") /\
  exists s e o,
    spec_fold [mkRange 10 50 "-"; mkRange 100 200 "+"] (1%Z, 5%Z) = (Z.of_N s, Z.of_N e) /\
    lit "hg38:chr1:145-149_-"
    = render_prefix example_chain ++ colon :: show_usize (N.min s e) ++ hyphen
        :: show_usize (N.max s e) ++ [underscore; o].
Proof.
  split; [reflexivity|]. split; [vm_compute; reflexivity|].
  apply (proj1 C4_normalize_frame_composition example_chain (mkRange 1 5 "+")
           [mkRange 10 50 "-"; mkRange 100 200 "+"]); vm_compute; reflexivity.
Defined.

Lemma converters_reject_whitespace_witness :
  existsb is_whitespace (lit "seq1_ 1_2") = true /\
  from_unknown_format (lit "seq1_ 1_2") false = Err MalformedInput /\
  from_v0 (lit "seq1_ 1_2") = Err MalformedInput /\
  from_v1 (lit "seq1_ 1_2") = Err MalformedInput.
Proof.
  split; [vm_compute; reflexivity|].
  apply converters_reject_whitespace. vm_compute. reflexivity.
Defined.


Lemma C8_from_v2_assembly_split_witness :
  parse_loop (S (length (lit ":chr1"))) (lit ":chr1") [] = Ok (lit ":chr1", []) /\
  from_v2 (lit ":chr1") = Ok (mkIdentifier (Some []) (lit "chr1") [] V2).
Proof.
  split; [vm_compute; reflexivity|].
  apply (proj1 (proj2 (C8_from_v2_assembly_split (lit ":chr1") (lit ":chr1") []
                         ltac:(vm_compute; reflexivity))) [] (lit "chr1"));
    vm_compute; reflexivity.
Defined.

Lemma C9_from_v2_render_roundtrip_witness :
  from_v2 (lit "hg38:chr1:100-200_+:10-50_-:1-5_+") = Ok example_chain /\
  from_v2 (render example_chain) = Ok example_chain.
Proof.
  split; [vm_compute; reflexivity|].
  apply (C9_from_v2_render_roundtrip (lit "hg38:chr1:100-200_+:10-50_-:1-5_+")).
  vm_compute. reflexivity.
Defined.

Lemma C10_inconsistent_suffix_stops_peeling_witness :
  captures_any (lit "seq_1_2") = Some (lit "seq", mkCaps "_" (lit "1") "_" (lit "2") None) /\
  convert_loop 8 false (Some V1) (lit "seq_1_2") [] = Ok (Some V1, lit "seq_1_2", []).
Proof.
  split; [vm_compute; reflexivity|].
  apply (proj1 C10_inconsistent_suffix_stops_peeling 7 false V1 (lit "seq_1_2") []
           (lit "seq") (mkCaps "_" (lit "1") "_" (lit "2") None) 1%N 2%N);
    try (vm_compute; reflexivity); discriminate.
Defined.

(** * Further properties of the code *)

(** ** [parse_id] *)

Lemma parse_finish_ok rem rs i :
  parse_finish rem rs = Ok i ->
  ranges i = rev rs /\ inferred_version i = V2 /\ sequence_id i <> [] /\
  forall rs', parse_finish rem rs' =
              Ok (mkIdentifier (assembly_id i) (sequence_id i) (rev rs') V2).
Proof.
  unfold parse_finish.
  destruct (split_colon rem) as [|a [|q [|x l]]]; try discriminate.
  - destruct a; intros H; [discriminate|]. injection H as <-.
    refine (conj eq_refl (conj eq_refl (conj _ _))); [discriminate|reflexivity].
  - destruct q; intros H; [discriminate|]. injection H as <-.
    refine (conj eq_refl (conj eq_refl (conj _ _))); [discriminate|reflexivity].
Qed.

(** Everything [from_v2] derives from a successful parse, in one place. *)
Lemma from_v2_facts s i :
  from_v2 s = Ok i ->
  exists rem nw,
    captures_v2 rem = None /\ (nw <> [] -> nl_free rem) /\
    Forall good_range nw /\ parse_finish rem nw = Ok i /\
    render_prefix i = rem /\ ranges i = rev nw.
Proof.
  unfold from_v2, parse_id. intros H.
  destruct (parse_loop (S (length s)) s []) as [[rem rs]| |] eqn:Hl;
    cbn [bind] in H; try discriminate.
  destruct (parse_loop_inv _ _ _ _ _ Hl) as [Hc [nw [Hrs [Hg [_ Hnl]]]]].
  cbn [app] in Hrs. subst rs.
  destruct (parse_finish_prefix _ _ _ H) as [Hp Hr].
  exists rem, nw. repeat split; assumption.
Qed.

(** [from_v2]: every range of a parsed identifier has [start <= end], an
    end within [usize], and orientation ['+'] or ['-']; the sequence
    identifier is non-empty and the version tag is [V2]. *)
Theorem from_v2_ranges_well_formed s i :
  from_v2 s = Ok i ->
  Forall good_range (ranges i) /\ sequence_id i <> [] /\ inferred_version i = V2.
Proof.
  intros H. destruct (from_v2_facts _ _ H) as (rem & nw & _ & _ & Hg & Hf & _ & Hr).
  destruct (parse_finish_ok _ _ _ Hf) as (_ & Hv & Hq & _).
  rewrite Hr. repeat split; [apply Forall_rev; exact Hg | exact Hq | exact Hv].
Qed.

(** ** [convert_id] *)

Lemma convert_split_join s a q :
  (convert_split s = Ok (Some a, q) -> s = a ++ colon :: q) /\
  (convert_split s = Ok (None, q) -> s = q).
Proof.
  unfold convert_split. pose proof (join_split_colon s) as J.
  destruct (count_colon s) as [|[|n]];
    destruct (split_colon s) as [|x [|y [|z l]]]; simpl in J; subst;
    split; intros H; try discriminate;
    repeat (break_match_in H; try discriminate); injection H; intros; subst; reflexivity.
Qed.

(** [convert_id] on text with no range suffix echoes the text back with
    version [Undefined], or fails with the assembly/sequence error. *)
Theorem convert_id_no_suffix id zbho :
  existsb is_whitespace id = false -> captures_any id = None ->
  convert_id id zbho =
    match convert_split id with
    | Ok _ => Ok (id, Undefined)
    | Err e => Err e
    | Panic => Panic
    end.
Proof.
  intros Hw Hc. unfold convert_id. rewrite Hw.
  cbn [convert_loop]. rewrite Hc. cbn [bind].
  destruct (convert_split id) as [[[a|] q]| |] eqn:Hs; cbn [bind]; try reflexivity.
  - apply (proj1 (convert_split_join id a q)) in Hs. subst id. reflexivity.
  - apply (proj2 (convert_split_join id [] q)) in Hs. subst q. reflexivity.
Qed.

Lemma range_fmt_defined k : range_fmt k <> Undefined.
Proof. unfold range_fmt. repeat (destruct (_ && _)%bool); discriminate. Qed.




Lemma bounds_loop_nested p rs v out :
  bounds_loop p rs v = Ok out -> nested_within p rs.
Proof.
  revert p v. induction rs as [|r rs IH]; intros p v H; [exact I|].
  cbn [bounds_loop] in H.
  destruct ((start r =? 0)%N || (end_ r =? 0)%N); [discriminate|].
  unfold checked_sub, checked_add in H.
  destruct (N.leb_spec (start r) (end_ r)); cbn [bind] in H; [|destruct p as [pl|];
    [destruct (_ || _)%bool|]; discriminate].
  destruct (end_ r - start r + 1 <=? usize_max)%N; cbn [bind] in H;
    [|destruct p as [pl|]; [destruct (_ || _)%bool|]; discriminate].
  cbn [nested_within]. destruct p as [pl|].
  - destruct (N.ltb_spec pl (start r)); [discriminate|].
    destruct (N.ltb_spec pl (end_ r)); [discriminate|].
    cbn [orb] in H. split; [split; assumption|]. eapply IH. exact H.
  - split; [exact I|]. eapply IH. exact H.
Qed.

(** [convert_id] succeeds only if the ranges its loop peeled, taken
    outermost first, nest: each lies within the length of the one before. *)
Theorem convert_id_ranges_nested id zbho f rem rs out :
  convert_loop (S (length id)) zbho None id [] = Ok (f, rem, rs) ->
  convert_id id zbho = Ok out ->
  nested_within None (rev rs).
Proof.
  intros Hl H. unfold convert_id in H.
  destruct (existsb is_whitespace id); [discriminate|].
  rewrite Hl in H. cbn [bind] in H.
  destruct (convert_split rem) as [[a q]| |]; cbn [bind] in H; try discriminate.
  destruct (bounds_loop None (rev rs) _) eqn:Hb; cbn [bind] in H; try discriminate.
  eapply bounds_loop_nested. exact Hb.
Qed.

(** ** [normalize_id] and [normalize] *)

Lemma parse_id_render s i : from_v2 s = Ok i -> parse_id (render i) = Ok i.
Proof.
  intros H. destruct (from_v2_facts _ _ H) as (rem & nw & Hc & Hnl & Hg & Hf & Hp & Hr).
  rewrite render_eq, Hp, Hr. unfold parse_id.
  rewrite (parse_loop_render rem nw []) by assumption.
  cbn [bind app]. exact Hf.
Qed.

(** With at most one range, and that range ordered, [normalize_id] is
    [Display]. *)
Lemma normalize_id_short i :
  length (ranges i) <= 1 -> Forall good_range (ranges i) ->
  normalize_id i = Ok (render i).
Proof.
  intros Hl Hg. unfold normalize_id. rewrite render_eq.
  destruct (ranges i) as [|r [|r' l]]; cbn [length] in Hl; [| |lia].
  - cbn [rev map concat]. rewrite app_nil_r. reflexivity.
  - inversion Hg as [|? ? [Hle _] _]; subst.
    cbn [rev app normalize_fold bind map concat]. rewrite app_nil_r.
    unfold fmt_range. destruct (N.ltb_spec (start r) (end_ r)); [reflexivity|].
    replace (end_ r) with (start r) by lia. reflexivity.
Qed.

Lemma normalize_short_fixed s i :
  from_v2 s = Ok i -> length (ranges i) <= 1 -> normalize i = Ok i.
Proof.
  intros H Hl. unfold normalize.
  destruct (from_v2_facts _ _ H) as (rem & nw & _ & _ & Hg & _ & _ & Hr).
  rewrite normalize_id_short; [| exact Hl | rewrite Hr; apply Forall_rev; exact Hg].
  cbn [bind]. eapply parse_id_render. exact H.
Qed.

Lemma normalize_step_bounds r acc acc' :
  (end_ r <= usize_max)%N -> normalize_step r acc = Ok acc' ->
  (fst (fst acc) <= usize_max -> snd (fst acc) <= usize_max ->
   fst (fst acc') <= usize_max /\ snd (fst acc') <= usize_max)%N /\
  (is_pm (snd acc) = true -> is_pm (snd acc') = true).
Proof.
  destruct acc as [[s e] o]. unfold normalize_step, checked_add, checked_sub.
  intros Hm H.
  destruct (Ascii.eqb (orientation r) hyphen) eqn:Eh;
    repeat (break_match_in H; cbn [bind] in H; try discriminate);
    injection H as <-; cbn [fst snd];
    repeat match goal with
           | E : (_ <=? _)%N = true |- _ => apply N.leb_le in E
           end;
    (split; [intros; split; lia|]);
    destruct (Ascii.eqb o hyphen); destruct (Ascii.eqb o plus);
    cbn [andb orb]; intros Ho; solve [reflexivity | exact Ho].
Qed.

Lemma normalize_fold_bounds anc acc acc' :
  Forall (fun r => (end_ r <= usize_max)%N) anc ->
  normalize_fold anc acc = Ok acc' ->
  (fst (fst acc) <= usize_max -> snd (fst acc) <= usize_max ->
   fst (fst acc') <= usize_max /\ snd (fst acc') <= usize_max)%N /\
  (is_pm (snd acc) = true -> is_pm (snd acc') = true).
Proof.
  revert acc. induction anc as [|r rs IH]; intros acc Hf H; cbn [normalize_fold] in H.
  - injection H as <-. split; auto.
  - inversion Hf as [|? ? Hr Hrs]; subst.
    destruct (normalize_step r acc) as [a1| |] eqn:Hs; cbn [bind] in H; try discriminate.
    destruct (normalize_step_bounds _ _ _ Hr Hs) as [B1 O1].
    destruct (IH a1 Hrs H) as [B2 O2].
    split; [intros; apply B2; apply B1; assumption | auto].
Qed.

(** On an identifier from [from_v2], a [normalize] that returns gives back
    the same assembly and sequence with at most one range, which is well
    formed (and exactly one when the input had ranges). *)
Lemma normalize_from_v2 s i j :
  from_v2 s = Ok i -> normalize i = Ok j ->
  j = mkIdentifier (assembly_id i) (sequence_id i) (ranges j) V2 /\
  length (ranges j) <= 1 /\ Forall good_range (ranges j) /\
  (ranges i = [] <-> ranges j = []).
Proof.
  intros H Hn. destruct (from_v2_facts _ _ H) as (rem & nw & Hc & Hnl & Hg & Hf & Hp & Hr).
  destruct (parse_finish_ok _ _ _ Hf) as (_ & _ & _ & Hrs).
  unfold normalize, normalize_id in Hn. rewrite Hr, rev_involutive, Hp in Hn.
  destruct nw as [|last anc].
  - cbn [bind] in Hn. unfold parse_id in Hn. cbn [parse_loop] in Hn.
    rewrite Hc in Hn. cbn [bind] in Hn. rewrite Hrs in Hn. injection Hn as <-.
    cbn [ranges rev]. rewrite Hr. cbn [rev].
    refine (conj eq_refl (conj _ (conj (Forall_nil _) _))); cbn [length]; [lia | tauto].
  - apply Forall_cons_iff in Hg. destruct Hg as [[Hle [Hm Ho]] Hga].
    destruct (normalize_fold anc (start last, end_ last, orientation last))
      as [[[s' e'] o']| |] eqn:Hfo; cbn [bind] in Hn; try discriminate.
    destruct (normalize_fold_bounds anc _ _
                (Forall_impl _ (fun r (G : good_range r) => proj1 (proj2 G)) Hga) Hfo)
      as [B O]. cbn [fst snd] in B, O.
    destruct (B ltac:(lia) Hm) as [Bs Be]. specialize (O Ho).
    set (r := if (s' <? e')%N then mkRange s' e' o' else mkRange e' s' o').
    assert (Hgr : good_range r).
    { subst r. destruct (N.ltb_spec s' e'); repeat split; simpl; try lia; exact O. }
    assert (Hout : (if (s' <? e')%N
                    then show_usize s' ++ hyphen :: show_usize e' ++ [underscore; o']
                    else show_usize e' ++ hyphen :: show_usize s' ++ [underscore; o'])
                   = tl (fmt_range r)).
    { subst r. destruct (s' <? e')%N; reflexivity. }
    rewrite Hout in Hn. unfold parse_id in Hn.
    assert (Htxt : rem ++ colon :: tl (fmt_range r)
                   = rem ++ concat (map fmt_range (rev [r]))).
    { cbn [rev app map concat]. rewrite app_nil_r. reflexivity. }
    rewrite Htxt in Hn.
    rewrite (parse_loop_render rem [r] []) in Hn;
      [| exact Hc | intros _; apply Hnl; discriminate | constructor; [exact Hgr | constructor]].
    cbn [bind app] in Hn. rewrite Hrs in Hn. injection Hn as <-.
    cbn [ranges rev app length].
    refine (conj eq_refl (conj (le_n 1) (conj (Forall_cons _ Hgr (Forall_nil _)) _))).
    split; [|discriminate]. intros E. rewrite Hr in E.
    apply (f_equal (@length Range)) in E. rewrite length_rev in E. discriminate.
Qed.

(** [normalize] leaves an identifier from [from_v2] with no range or a
    single range unchanged. *)
Theorem normalize_fixes_short_identifiers s i :
  from_v2 s = Ok i -> length (ranges i) <= 1 -> normalize i = Ok i.
Proof. exact (normalize_short_fixed s i). Qed.

(** [normalize] of an identifier from [from_v2], when it returns, keeps the
    assembly and sequence and leaves one well-formed range (none if the
    input had none), tagged [V2]. *)
Theorem normalize_result_single_range s i j :
  from_v2 s = Ok i -> normalize i = Ok j ->
  assembly_id j = assembly_id i /\ sequence_id j = sequence_id i /\
  inferred_version j = V2 /\ length (ranges j) <= 1 /\
  Forall good_range (ranges j) /\ (ranges i = [] <-> ranges j = []).
Proof.
  intros H Hn. destruct (normalize_from_v2 _ _ _ H Hn) as (Hj & Hl & Hg & He).
  do 3 (split; [rewrite Hj; reflexivity|]). auto.
Qed.

(** [normalize] is idempotent on identifiers from [from_v2]. *)
Theorem normalize_idempotent s i j :
  from_v2 s = Ok i -> normalize i = Ok j -> normalize j = Ok j.
Proof.
  intros H Hn. destruct (normalize_from_v2 _ _ _ H Hn) as (_ & Hl & _ & _).
  unfold normalize in Hn.
  destruct (normalize_id i) as [out| |]; cbn [bind] in Hn; try discriminate.
  apply (normalize_short_fixed out); [exact Hn | exact Hl].
Qed.

(** ** The regexes and newlines *)

Lemma take_digits_split s d r :
  take_digits s = (d, r) -> s = d ++ r /\ Forall (fun c => is_digit c = true) d.
Proof.
  revert d r. induction s as [|c s IH]; intros d r H; cbn [take_digits] in H.
  - injection H as <- <-. split; [reflexivity | constructor].
  - destruct (is_digit c) eqn:Ec.
    + destruct (take_digits s) as [d' r'] eqn:Ht. injection H as <- <-.
      destruct (IH _ _ eq_refl) as [-> Hd]. split; [reflexivity | constructor; assumption].
    + injection H as <- <-. split; [reflexivity | constructor].
Qed.

Lemma digits_no_newline d :
  Forall (fun c => is_digit c = true) d -> ~ In newline d.
Proof.
  intros H Hin. rewrite Forall_forall in H. specialize (H _ Hin). vm_compute in H. discriminate.
Qed.

Section NewlineFacts.
Variables is_sep1 is_sep2 is_orient : ascii -> bool.
Hypothesis sep1_nl : is_sep1 newline = false.
Hypothesis sep2_nl : is_sep2 newline = false.
Hypothesis orient_nl : is_orient newline = false.

Lemma tail_match_no_newline t k :
  tail_match is_sep1 is_sep2 is_orient t = Some k -> ~ In newline t.
Proof.
  unfold tail_match. intros H.
  destruct t as [|c1 r1]; [discriminate|].
  destruct (is_sep1 c1) eqn:E1; [|discriminate].
  destruct (take_digits r1) as [d1 x1] eqn:T1.
  destruct (take_digits_split _ _ _ T1) as [-> D1].
  destruct d1 as [|a1 d1]; [discriminate|].
  destruct x1 as [|c2 r2]; [discriminate|].
  destruct (is_sep2 c2) eqn:E2; [|discriminate].
  destruct (take_digits r2) as [d2 x2] eqn:T2.
  destruct (take_digits_split _ _ _ T2) as [-> D2].
  destruct d2 as [|a2 d2]; [discriminate|].
  assert (Hx : ~ In newline x2).
  { destruct x2 as [|u [|o [|z l]]]; try discriminate; [intros []|].
    destruct (Ascii.eqb u underscore && is_orient o) eqn:Eu; [|discriminate].
    apply andb_prop in Eu as [Eu Eo]. apply Ascii.eqb_eq in Eu. subst u.
    intros [Hn|[Hn|[]]]; [discriminate|]. subst o. congruence. }
  intros [Hn|Hin]; [subst c1; congruence|].
  apply in_app_or in Hin as [Hin|[Hn|Hin]].
  - exact (digits_no_newline _ D1 Hin).
  - subst c2. congruence.
  - apply in_app_or in Hin as [Hin|Hin]; [exact (digits_no_newline _ D2 Hin) | exact (Hx Hin)].
Qed.

Lemma scan_before_newline u s :
  scan is_sep1 is_sep2 is_orient (u ++ newline :: s) = None.
Proof.
  assert (Hh : forall t, In newline t ->
                 option_map (fun k => ([] : str, k)) (tail_match is_sep1 is_sep2 is_orient t)
                 = None).
  { intros t Hin. destruct (tail_match _ _ _ t) eqn:Ht; [|reflexivity].
    exfalso. exact (tail_match_no_newline _ _ Ht Hin). }
  induction u as [|c u IH]; cbn [app scan].
  - rewrite Ascii.eqb_refl. apply Hh. left. reflexivity.
  - rewrite IH. destruct (Ascii.eqb c newline); apply Hh; right; apply in_or_app; right; left;
      reflexivity.
Qed.

(** No match of the regex starts before a newline. *)
Lemma captures_after_newline u s :
  captures is_sep1 is_sep2 is_orient (u ++ newline :: s)
  = captures is_sep1 is_sep2 is_orient s.
Proof.
  induction u as [|c u IH]; cbn [app captures].
  - pose proof (scan_before_newline [] s) as E. cbn [app] in E. rewrite E. reflexivity.
  - pose proof (scan_before_newline (c :: u) s) as E. cbn [app] in E. rewrite E. exact IH.
Qed.
End NewlineFacts.

(** [from_v2] ignores everything up to the last newline, provided what
    follows it ends in a range suffix. *)
Theorem from_v2_drops_text_before_newline u s :
  captures_v2 s <> None -> from_v2 (u ++ newline :: s) = from_v2 s.
Proof.
  intros Hs. unfold from_v2, parse_id. cbn [parse_loop].
  unfold captures_v2 in *. rewrite captures_after_newline by reflexivity.
  destruct (captures _ _ _ s) as [[p k]|] eqn:Hc; [|congruence].
  pose proof (captures_shorter _ _ _ _ _ _ Hc) as Hlt.
  destruct (parse_usize (cap_start k)); cbn [bind]; try reflexivity.
  destruct (parse_usize (cap_end k)); cbn [bind]; try reflexivity.
  destruct (cap_orient k); cbn [bind]; try reflexivity.
  destruct (_ <? _)%N; [reflexivity|].
  rewrite (parse_loop_fuel (length (u ++ newline :: s)) (length s)); [reflexivity| |lia].
  rewrite length_app. cbn [length]. lia.
Qed.

(** [from_v2] never swaps coordinates: a final canonical range written
    high-low is an error. *)
Theorem from_v2_rejects_decreasing_suffix x a b o :
  nl_free x -> is_pm o = true -> (a <= usize_max)%N -> (b < a)%N ->
  from_v2 (x ++ fmt_range (mkRange a b o)) = Err DecreasingRange.
Proof.
  intros Hx Ho Ha Hba. unfold from_v2, parse_id. cbn [parse_loop].
  rewrite captures_v2_app by assumption.
  cbn [bind cap_start cap_end cap_orient start end_ orientation].
  rewrite (parse_show_usize a), (parse_show_usize b) by lia. cbn [bind].
  destruct (N.ltb_spec b a); [reflexivity | lia].
Qed.

(** ** A single V1 suffix through [convert_id] *)

Section AppendFacts.
Variables is_sep1 is_sep2 is_orient : ascii -> bool.

Lemma scan_no_sep1 t :
  Forall (fun c => is_sep1 c = false) t -> scan is_sep1 is_sep2 is_orient t = None.
Proof.
  induction t as [|c t IH]; intros H; cbn [scan]; [reflexivity|].
  apply Forall_cons_iff in H as [Hc Ht].
  assert (Hm : tail_match is_sep1 is_sep2 is_orient (c :: t) = None).
  { unfold tail_match. rewrite Hc. reflexivity. }
  rewrite Hm, IH by exact Ht. destruct (Ascii.eqb c newline); reflexivity.
Qed.

(** A match of the whole tail after a newline-free prefix, with no first
    separator inside the tail, is the match of [captures]. *)
Lemma scan_app_suffix x c t k :
  nl_free x -> c <> newline -> Forall (fun c => is_sep1 c = false) t ->
  tail_match is_sep1 is_sep2 is_orient (c :: t) = Some k ->
  scan is_sep1 is_sep2 is_orient (x ++ c :: t) = Some (x, k).
Proof.
  unfold nl_free. intros Hx Hc Ht Hk. induction x as [|d x IH]; cbn [app scan].
  - destruct (Ascii.eqb_spec c newline); [contradiction|].
    rewrite scan_no_sep1 by exact Ht. rewrite Hk. reflexivity.
  - apply Forall_cons_iff in Hx as [Hd Hx].
    destruct (Ascii.eqb_spec d newline); [contradiction|].
    rewrite IH by exact Hx. reflexivity.
Qed.
End AppendFacts.

Lemma digit_not_sep_any c :
  is_digit c = true -> (Ascii.eqb c colon || Ascii.eqb c underscore)%bool = false.
Proof.
  intros H. destruct (Ascii.eqb_spec c colon) as [->|_]; [vm_compute in H; discriminate|].
  destruct (Ascii.eqb_spec c underscore) as [->|_]; [vm_compute in H; discriminate|].
  reflexivity.
Qed.

Lemma digit_not_whitespace c : is_digit c = true -> is_whitespace c = false.
Proof.
  unfold is_digit, is_whitespace. intros H.
  apply andb_prop in H as [H1 H2]. apply Nat.leb_le in H1, H2.
  apply orb_false_iff. split.
  - apply andb_false_iff. right. apply Nat.leb_gt. lia.
  - apply Nat.eqb_neq. lia.
Qed.

Lemma digits_no_whitespace d :
  Forall (fun c => is_digit c = true) d -> existsb is_whitespace d = false.
Proof.
  induction 1 as [|c d Hc _ IH]; [reflexivity|].
  cbn [existsb]. rewrite digit_not_whitespace, IH by exact Hc. reflexivity.
Qed.

Lemma no_whitespace_nl_free x : existsb is_whitespace x = false -> nl_free x.
Proof.
  induction x as [|c x IH]; intros H; [constructor|].
  cbn [existsb] in H. apply orb_false_iff in H as [Hc Hx].
  constructor; [intros ->; discriminate Hc | exact (IH Hx)].
Qed.

Lemma convert_loop_done f zbho inf s acc :
  captures_any s = None -> convert_loop (S f) zbho inf s acc = Ok (inf, s, acc).
Proof. intros H. cbn [convert_loop]. rewrite H. reflexivity. Qed.

Lemma captures_any_v1_suffix seq a b :
  nl_free seq ->
  captures_any (seq ++ colon :: show_usize a ++ hyphen :: show_usize b)
  = Some (seq, mkCaps colon (show_usize a) hyphen (show_usize b) None).
Proof.
  intros Hx. unfold captures_any. apply captures_scan. apply scan_app_suffix.
  - exact Hx.
  - discriminate.
  - apply Forall_app. split.
    + eapply Forall_impl; [|apply show_usize_digits]. apply digit_not_sep_any.
    + constructor; [reflexivity|].
      eapply Forall_impl; [|apply show_usize_digits]. apply digit_not_sep_any.
  - unfold tail_match.
    replace (Ascii.eqb colon colon || Ascii.eqb colon underscore)%bool with true
      by reflexivity.
    rewrite take_digits_app by (apply show_usize_digits || reflexivity).
    pose proof (show_usize_nonempty a) as N1.
    destruct (show_usize a) as [|a1 l1]; [congruence|].
    replace (Ascii.eqb hyphen hyphen || Ascii.eqb hyphen underscore)%bool with true
      by reflexivity.
    pose proof (take_digits_app (show_usize b) [] (show_usize_digits b) I) as T.
    rewrite app_nil_r in T. rewrite T.
    pose proof (show_usize_nonempty b) as N2.
    destruct (show_usize b) as [|a2 l2]; [congruence|]. reflexivity.
Qed.

(** [convert_id] on one V1 suffix [":a-b"]: with [zbho] the start becomes
    [a + 1]; the pair is put in order, marked ['-'] when it was written
    high-low and ['+'] otherwise, and rendered as a V2 range after the
    unchanged rest of the text. *)
Theorem convert_id_v1_suffix (seq : str) (a b : N) (zbho : bool) aq :
  existsb is_whitespace seq = false -> captures_any seq = None ->
  convert_split seq = Ok aq ->
  let a' := (if zbho then a + 1 else a)%N in
  (1 <= a')%N -> (1 <= b)%N -> (a' <= usize_max)%N -> (b <= usize_max)%N ->
  convert_id (seq ++ colon :: show_usize a ++ hyphen :: show_usize b) zbho
  = Ok (seq ++ fmt_range (if (b <? a')%N then mkRange b a' hyphen
                           else mkRange a' b plus), V1).
Proof.
  intros Hw Hc Hs a' Ha1 Hb1 Ham Hbm.
  set (txt := seq ++ colon :: show_usize a ++ hyphen :: show_usize b).
  assert (Hwt : existsb is_whitespace txt = false).
  { subst txt. rewrite existsb_app, Hw. cbn [existsb orb].
    replace (is_whitespace colon) with false by reflexivity.
    rewrite existsb_app, digits_no_whitespace by apply show_usize_digits. cbn [existsb orb].
    replace (is_whitespace hyphen) with false by reflexivity.
    apply digits_no_whitespace, show_usize_digits. }
  assert (Hal : (a <= usize_max)%N) by (subst a'; destruct zbho; lia).
  set (r := if (b <? a')%N then mkRange b a' hyphen else mkRange a' b plus).
  assert (Hloop : convert_loop (S (length txt)) zbho None txt [] = Ok (Some V1, seq, [r])).
  { cbn [convert_loop]. subst txt.
    rewrite captures_any_v1_suffix by (apply no_whitespace_nl_free; exact Hw).
    cbn [bind cap_start cap_end cap_orient].
    rewrite (parse_show_usize a), (parse_show_usize b) by assumption. cbn [bind].
    assert (Hz : (if zbho then checked_add a 1 else Ok a) = Ok a').
    { subst a'. destruct zbho; [|reflexivity]. unfold checked_add.
      destruct (N.leb_spec (a + 1) usize_max); [reflexivity | lia]. }
    rewrite Hz. cbn [bind].
    assert (Hf : range_fmt (mkCaps colon (show_usize a) hyphen (show_usize b) None) = V1)
      by reflexivity.
    rewrite Hf. unfold order_range. unfold r.
    rewrite length_app. cbn [length]. rewrite Nat.add_succ_r.
    destruct (b <? a')%N; cbn [bind app]; apply convert_loop_done; exact Hc. }
  unfold convert_id. rewrite Hwt, Hloop. cbn [bind].
  destruct aq as [[asm|] q].
  - rewrite Hs. cbn [bind]. apply (proj1 (convert_split_join seq asm q)) in Hs. rewrite <- Hs.
    cbn [rev app bounds_loop].
    assert (Hr : (1 <= start r)%N /\ (start r <= end_ r)%N /\ (end_ r <= usize_max)%N).
    { subst r. destruct (N.ltb_spec b a'); cbn [start end_]; lia. }
    destruct Hr as (H1 & H2 & H3).
    replace ((start r =? 0)%N || (end_ r =? 0)%N)%bool with false
      by (symmetry; apply orb_false_iff; split; apply N.eqb_neq; lia).
    unfold checked_sub, checked_add.
    destruct (N.leb_spec (start r) (end_ r)); [|lia]. cbn [bind].
    destruct (N.leb_spec (end_ r - start r + 1) usize_max); [reflexivity | lia].
  - rewrite Hs. cbn [bind]. apply (proj2 (convert_split_join seq [] q)) in Hs. rewrite <- Hs.
    cbn [rev app bounds_loop].
    assert (Hr : (1 <= start r)%N /\ (start r <= end_ r)%N /\ (end_ r <= usize_max)%N).
    { subst r. destruct (N.ltb_spec b a'); cbn [start end_]; lia. }
    destruct Hr as (H1 & H2 & H3).
    replace ((start r =? 0)%N || (end_ r =? 0)%N)%bool with false
      by (symmetry; apply orb_false_iff; split; apply N.eqb_neq; lia).
    unfold checked_sub, checked_add.
    destruct (N.leb_spec (start r) (end_ r)); [|lia]. cbn [bind].
    destruct (N.leb_spec (end_ r - start r + 1) usize_max); [reflexivity | lia].
Qed.

(** ** What [convert_id] writes and what [from_unknown_format] keeps *)

Lemma bounds_loop_text p rs v out :
  bounds_loop p rs v = Ok out -> out = v ++ concat (map fmt_range rs).
Proof.
  revert p v out. induction rs as [|r rs IH]; intros p v out H; cbn [bounds_loop] in H.
  - injection H as <-. cbn [map concat]. rewrite app_nil_r. reflexivity.
  - destruct ((start r =? 0)%N || (end_ r =? 0)%N); [discriminate|].
    assert (Hc : forall l, (d <- checked_sub (end_ r) (start r) ;;
                            len <- checked_add d 1 ;;
                            bounds_loop (Some len) rs (v ++ fmt_range r)) = Ok l ->
                           l = v ++ concat (map fmt_range (r :: rs))).
    { intros l Hl. destruct (checked_sub _ _); cbn [bind] in Hl; try discriminate.
      destruct (checked_add _ _); cbn [bind] in Hl; try discriminate.
      rewrite (IH _ _ _ Hl). cbn [map concat]. rewrite app_assoc. reflexivity. }
    destruct p as [pl|]; [destruct (_ || _)%bool; [discriminate|]|]; apply Hc; exact H.
Qed.

Lemma convert_id_loop id zbho f rem rs out v :
  convert_loop (S (length id)) zbho None id [] = Ok (f, rem, rs) ->
  convert_id id zbho = Ok (out, v) ->
  existsb is_whitespace id = false /\
  (exists aq, convert_split rem = Ok aq) /\
  bounds_loop None (rev rs) rem = Ok out.
Proof.
  intros Hl H. unfold convert_id in H.
  destruct (existsb is_whitespace id); [discriminate|].
  rewrite Hl in H. cbn [bind] in H.
  destruct (convert_split rem) as [[[a|] q]| |] eqn:Hs; cbn [bind] in H; try discriminate.
  - apply (proj1 (convert_split_join rem a q)) in Hs as Hj. rewrite <- Hj in H.
    destruct (bounds_loop None (rev rs) rem) eqn:Hb; cbn [bind] in H; try discriminate.
    injection H as <- _. eauto.
  - apply (proj2 (convert_split_join rem [] q)) in Hs as Hj. rewrite <- Hj in H.
    destruct (bounds_loop None (rev rs) rem) eqn:Hb; cbn [bind] in H; try discriminate.
    injection H as <- _. eauto.
Qed.

(** The V2 text [convert_id] returns is the text its loop left unpeeled,
    followed by the peeled ranges, outermost first, in V2 form. *)
Theorem convert_id_output_text id zbho f rem rs out v :
  convert_loop (S (length id)) zbho None id [] = Ok (f, rem, rs) ->
  convert_id id zbho = Ok (out, v) ->
  out = rem ++ concat (map fmt_range (rev rs)).
Proof.
  intros Hl H. destruct (convert_id_loop _ _ _ _ _ _ _ Hl H) as (_ & _ & Hb).
  exact (bounds_loop_text _ _ _ _ Hb).
Qed.

Lemma order_range_good fmt s e o r :
  fmt <> Undefined -> is_pm o = true -> (s <= usize_max)%N -> (e <= usize_max)%N ->
  order_range fmt s e o = Ok r -> good_range r.
Proof.
  unfold order_range, good_range. intros Hf Ho Hs He H.
  destruct fmt; [congruence| | |]; destruct (N.ltb_spec e s); try discriminate;
    injection H as <-; cbn [start end_ orientation]; repeat split; try lia;
    solve [exact Ho | reflexivity].
Qed.

Lemma convert_loop_good f zbho inf s acc inf' rem rs :
  convert_loop f zbho inf s acc = Ok (inf', rem, rs) ->
  Forall good_range acc -> nl_free s ->
  Forall good_range rs /\ nl_free rem.
Proof.
  revert inf s acc. induction f as [|f IH]; intros inf s acc H Hacc Hs;
    cbn [convert_loop] in H; [discriminate|].
  destruct (captures_any s) as [[p k]|] eqn:Hc; [|injection H as _ <- <-; auto].
  unfold captures_any in Hc.
  destruct (captures_inv _ _ _ _ _ _ Hc) as (u & t & _ & Ht & Hp).
  destruct (parse_usize (cap_start k)) as [st| |] eqn:Es; cbn [bind] in H; try discriminate.
  destruct (parse_usize (cap_end k)) as [en| |] eqn:Ee; cbn [bind] in H; try discriminate.
  apply parse_usize_bound in Es, Ee.
  set (o := match cap_orient k with
            | Some o => if (o =? letter_R)%char then hyphen else o
            | None => plus end) in H.
  assert (Ho : is_pm o = true).
  { subst o. destruct (cap_orient k) as [c|] eqn:Eo; [|reflexivity].
    pose proof (tail_match_orient _ _ _ _ _ _ Ht Eo) as Hc'. cbn beta in Hc'.
    destruct (Ascii.eqb_spec c letter_R); [reflexivity|].
    apply orb_prop in Hc' as [Hr|Hr];
      [first [discriminate Hr | apply Ascii.eqb_eq in Hr; contradiction] | exact Hr]. }
  destruct (if zbho then checked_add st 1 else Ok st) as [st'| |] eqn:Ez;
    cbn [bind] in H; try discriminate.
  assert (Hst : (st' <= usize_max)%N).
  { destruct zbho; [|injection Ez as <-; exact Es].
    unfold checked_add in Ez. destruct (N.leb_spec (st + 1) usize_max); [|discriminate].
    injection Ez as <-. assumption. }
  destruct (order_range (range_fmt k) st' en o) as [r| |] eqn:Eor; cbn [bind] in H;
    [| destruct inf as [i|]; [destruct (IDVersion_eqb i _)|]; try discriminate;
       injection H as _ <- <-; auto ..].
  assert (Hacc' : Forall good_range (acc ++ [r])).
  { apply Forall_app; split; [exact Hacc|].
    constructor; [|constructor].
    eapply order_range_good; [apply range_fmt_defined | exact Ho | exact Hst | exact Ee | exact Eor]. }
  destruct inf as [i|]; [destruct (IDVersion_eqb i _)|].
  - eapply IH; eassumption.
  - injection H as _ <- <-. auto.
  - eapply IH; eassumption.
Qed.

Lemma convert_split_finish rem aq rs :
  convert_split rem = Ok aq ->
  parse_finish rem rs = Ok (mkIdentifier (fst aq) (snd aq) (rev rs) V2).
Proof.
  unfold convert_split, parse_finish. pose proof (join_split_colon rem) as J. intros H.
  destruct (count_colon rem) as [|[|n]]; destruct (split_colon rem) as [|x [|y [|z l]]];
    try discriminate; cbn [join_colon] in J.
  - subst rem. destruct x; [discriminate|]. injection H as <-. reflexivity.
  - destruct x; [discriminate|]. destruct y; [discriminate|]. injection H as <-. reflexivity.
Qed.

(** [from_unknown_format]: when the text the conversion loop left unpeeled
    has no V2 range suffix, the identifier returned carries exactly the
    ranges the loop peeled, outermost first, after that text. *)
Theorem from_unknown_format_keeps_ranges id zbho f rem rs i v :
  convert_loop (S (length id)) zbho None id [] = Ok (f, rem, rs) ->
  captures_v2 rem = None ->
  from_unknown_format id zbho = Ok (i, v) ->
  ranges i = rev rs /\ render_prefix i = rem /\ inferred_version i = V2.
Proof.
  intros Hl Hc H. unfold from_unknown_format in H.
  destruct (convert_id id zbho) as [[out v']| |] eqn:Hcv; cbn [bind] in H; try discriminate.
  destruct (convert_id_loop _ _ _ _ _ _ _ Hl Hcv) as (Hw & [aq Hs] & Hb).
  apply bounds_loop_text in Hb.
  destruct (convert_loop_good _ _ _ _ _ _ _ _ Hl (Forall_nil _) (no_whitespace_nl_free _ Hw))
    as [Hg Hn].
  unfold parse_id in H. rewrite Hb in H.
  rewrite (parse_loop_render rem rs []) in H by (auto using Forall_nil).
  cbn [bind app] in H. rewrite (convert_split_finish rem aq rs Hs) in H.
  injection H as <- _.
  destruct (parse_finish_prefix rem rs _ (convert_split_finish rem aq rs Hs)) as [Hp Hr].
  auto.
Qed.

(** [from_unknown_format] returns canonical identifiers: tagged [V2],
    with well-formed ranges, and rendered text that [from_v2] parses back
    to the same identifier. *)
Theorem from_unknown_format_canonical id zbho i v :
  from_unknown_format id zbho = Ok (i, v) ->
  inferred_version i = V2 /\ Forall good_range (ranges i) /\ from_v2 (render i) = Ok i.
Proof.
  intros H. unfold from_unknown_format in H.
  destruct (convert_id id zbho) as [[out v']| |]; cbn [bind] in H; try discriminate.
  destruct (parse_id out) as [j| |] eqn:Hp; cbn [bind] in H; try discriminate.
  injection H as <- _.
  destruct (from_v2_facts out j Hp) as (rem & nw & _ & _ & Hg & Hf & _ & Hr).
  destruct (parse_finish_ok _ _ _ Hf) as (_ & Hv & _ & _).
  split; [exact Hv|]. split; [rewrite Hr; apply Forall_rev; exact Hg|].
  exact (parse_id_render out j Hp).
Qed.

(** [convert_id] fails with [ZeroCoordinate] when the outermost range it
    peeled (the last one pushed) has a zero coordinate. *)
Theorem convert_id_zero_outermost id zbho f rem rs r aq :
  existsb is_whitespace id = false ->
  convert_loop (S (length id)) zbho None id [] = Ok (f, rem, rs ++ [r]) ->
  convert_split rem = Ok aq ->
  (start r = 0 \/ end_ r = 0)%N ->
  convert_id id zbho = Err ZeroCoordinate.
Proof.
  intros Hw Hl Hs Hz. unfold convert_id. rewrite Hw, Hl. cbn [bind]. rewrite Hs. cbn [bind].
  destruct aq as [[a|] q]; rewrite rev_app_distr; cbn [rev app bounds_loop];
    replace ((start r =? 0)%N || (end_ r =? 0)%N)%bool with true
      by (destruct Hz as [-> | ->]; [reflexivity | symmetry; apply orb_true_r]); reflexivity.
Qed.

(** [convert_id] fails with [OutOfBounds] when the second outermost range
    it peeled reaches past the length of the outermost one. *)
Theorem convert_id_out_of_bounds id zbho f rem rs r1 r2 aq :
  existsb is_whitespace id = false ->
  convert_loop (S (length id)) zbho None id [] = Ok (f, rem, rs ++ [r2; r1]) ->
  convert_split rem = Ok aq ->
  (start r1 <> 0)%N -> (end_ r1 <> 0)%N -> (start r2 <> 0)%N -> (end_ r2 <> 0)%N ->
  (end_ r1 - start r1 + 1 < start r2 \/ end_ r1 - start r1 + 1 < end_ r2)%N ->
  convert_id id zbho = Err OutOfBounds.
Proof.
  intros Hw Hl Hs H1 H2 H3 H4 Hlt.
  destruct (convert_loop_good _ _ _ _ _ _ _ _ Hl (Forall_nil _) (no_whitespace_nl_free _ Hw))
    as [Hg _].
  apply Forall_app in Hg as [_ Hg]. apply Forall_cons_iff in Hg as [_ Hg].
  apply Forall_cons_iff in Hg as [[Hle [Hm _]] _].
  unfold convert_id. rewrite Hw, Hl. cbn [bind]. rewrite Hs. cbn [bind].
  assert (Hb : forall v, bounds_loop None (rev (rs ++ [r2; r1])) v = Err OutOfBounds).
  { intros v. rewrite rev_app_distr. cbn [rev app bounds_loop].
    replace ((start r1 =? 0)%N || (end_ r1 =? 0)%N)%bool with false
      by (symmetry; apply orb_false_iff; split; apply N.eqb_neq; assumption).
    unfold checked_sub at 1, checked_add at 1.
    destruct (N.leb_spec (start r1) (end_ r1)); [|lia]. cbn [bind].
    destruct (N.leb_spec (end_ r1 - start r1 + 1) usize_max); [|lia]. cbn [bind bounds_loop].
    replace ((start r2 =? 0)%N || (end_ r2 =? 0)%N)%bool with false
      by (symmetry; apply orb_false_iff; split; apply N.eqb_neq; assumption).
    replace ((end_ r1 - start r1 + 1 <? start r2)%N || (end_ r1 - start r1 + 1 <? end_ r2)%N)%bool
      with true; [reflexivity|].
    symmetry. apply orb_true_iff. destruct Hlt; [left|right]; apply N.ltb_lt; assumption. }
  destruct aq as [[a|] q]; rewrite Hb; reflexivity.
Qed.


(** ** The assembly/sequence split of [parse_id] *)

Lemma parse_id_rendered p rs :
  captures_v2 p = None -> (rs <> [] -> nl_free p) -> Forall good_range rs ->
  parse_id (p ++ concat (map fmt_range rs)) = parse_finish p (rev rs).
Proof.
  intros Hc Hn Hg. unfold parse_id.
  pose proof (parse_loop_render p (rev rs) [] Hc) as R.
  rewrite rev_involutive in R. rewrite R; cbn [bind app]; [reflexivity| |].
  - intros Hr. apply Hn. intros ->. apply Hr. reflexivity.
  - apply Forall_rev. exact Hg.
Qed.

(** [from_v2] rejects text whose part before the ranges has two or more
    [':'] with [MalformedAssemblySequence]. *)
Theorem from_v2_too_many_colons p rs :
  captures_v2 p = None -> (rs <> [] -> nl_free p) -> Forall good_range rs ->
  2 <= count_colon p ->
  from_v2 (p ++ concat (map fmt_range rs)) = Err MalformedAssemblySequence.
Proof.
  intros Hc Hn Hg H2. unfold from_v2. rewrite parse_id_rendered by assumption.
  unfold parse_finish. pose proof (split_colon_length p) as L.
  destruct (split_colon p) as [|x [|y [|z l]]]; cbn [length] in L; try lia. reflexivity.
Qed.

(** [from_v2] rejects an empty sequence identifier, whether the text
    before the ranges is empty or is an assembly followed by [':'], with
    [EmptySequenceId]. *)
Theorem from_v2_empty_sequence p rs :
  captures_v2 p = None -> (rs <> [] -> nl_free p) -> Forall good_range rs ->
  (p = [] \/ exists a, p = a ++ [colon] /\ count_colon a = 0) ->
  from_v2 (p ++ concat (map fmt_range rs)) = Err EmptySequenceId.
Proof.
  intros Hc Hn Hg Hp. unfold from_v2. rewrite parse_id_rendered by assumption.
  unfold parse_finish. destruct Hp as [-> | (a & -> & Ha)]; [reflexivity|].
  rewrite split_colon_one by (exact Ha || reflexivity). reflexivity.
Qed.

(** ** Inputs [from_v2] accepts *)

(** C5 (code defect): [from_v2] performs no whitespace check, unlike
    [convert_id]. Any text made of a whitespace-bearing sequence
    identifier (no [':'], no range suffix of its own) followed by
    well-formed rendered ranges parses, the whitespace kept in the
    sequence identifier. *)
Theorem C5_from_v2_accepts_whitespace p rs :
  existsb is_whitespace p = true -> captures_v2 p = None ->
  (rs <> [] -> nl_free p) -> Forall good_range rs ->
  count_colon p = 0 -> p <> [] ->
  from_v2 (p ++ concat (map fmt_range rs)) = Ok (mkIdentifier None p rs V2).
Proof.
  intros _ Hc Hn Hg H0 Hp. unfold from_v2. rewrite parse_id_rendered by assumption.
  unfold parse_finish. rewrite split_colon_none by exact H0.
  destruct p as [|c p]; [congruence|]. rewrite rev_involutive. reflexivity.
Qed.

(** C7 (code defect): [from_v2] performs no zero check, unlike
    [convert_id]: a range with start 0 after a plain sequence identifier
    is returned as it is. Through the re-parse of a suffix [convert_id]
    stopped at, [from_unknown_format] returns such a range as well. *)
Theorem C7_zero_coordinates_accepted :
  (forall p e o,
     captures_v2 p = None -> nl_free p -> count_colon p = 0 -> p <> [] ->
     is_pm o = true -> (e <= usize_max)%N ->
     from_v2 (p ++ fmt_range (mkRange 0 e o))
     = Ok (mkIdentifier None p [mkRange 0 e o] V2)) /\
  from_unknown_format (lit "x:0-2_+:3-4") false
  = Ok (mkIdentifier None (lit "x") [mkRange 0 2 "+"; mkRange 3 4 "+"] V2, V1).
Proof.
  split; [|vm_compute; reflexivity].
  intros p e o Hc Hn H0 Hp Ho He.
  replace (p ++ fmt_range (mkRange 0 e o))
    with (p ++ concat (map fmt_range [mkRange 0 e o]))
    by (cbn [map concat]; rewrite app_nil_r; reflexivity).
  unfold from_v2. rewrite parse_id_rendered.
  - unfold parse_finish. rewrite split_colon_none by exact H0.
    destruct p as [|c p]; [congruence|]. reflexivity.
  - exact Hc.
  - intros _. exact Hn.
  - constructor; [|constructor]. unfold good_range. cbn [start end_ orientation].
    split; [lia|]. split; assumption.
Qed.

(** * Further properties at concrete inputs *)

Lemma from_v2_ranges_well_formed_witness :
  from_v2 (lit "hg38:chr1:100-200_+:10-50_-:1-5_+") = Ok example_chain /\
  Forall good_range (ranges example_chain) /\ sequence_id example_chain <> [] /\
  inferred_version example_chain = V2.
Proof.
  split; [vm_compute; reflexivity|].
  apply (from_v2_ranges_well_formed (lit "hg38:chr1:100-200_+:10-50_-:1-5_+")).
  vm_compute. reflexivity.
Defined.

Lemma convert_id_no_suffix_witness :
  existsb is_whitespace (lit "hg38:chr1") = false /\
  captures_any (lit "hg38:chr1") = None /\
  convert_id (lit "hg38:chr1") true =
    match convert_split (lit "hg38:chr1") with
    | Ok _ => Ok (lit "hg38:chr1", Undefined)
    | Err e => Err e
    | Panic => Panic
    end.
Proof.
  split; [vm_compute; reflexivity|]. split; [vm_compute; reflexivity|].
  apply convert_id_no_suffix; vm_compute; reflexivity.
Defined.


Lemma convert_id_ranges_nested_witness :
  convert_loop (S (length (lit "chr1:10-50:2-5"))) false None (lit "chr1:10-50:2-5") []
    = Ok (Some V1, lit "chr1", [mkRange 2 5 "+"; mkRange 10 50 "+"]) /\
  convert_id (lit "chr1:10-50:2-5") false = Ok (lit "chr1:10-50_+:2-5_+", V1) /\
  nested_within None (rev [mkRange 2 5 "+"; mkRange 10 50 "+"]).
Proof.
  split; [vm_compute; reflexivity|]. split; [vm_compute; reflexivity|].
  apply (convert_id_ranges_nested (lit "chr1:10-50:2-5") false (Some V1) (lit "chr1")
           _ (lit "chr1:10-50_+:2-5_+", V1)); vm_compute; reflexivity.
Defined.

Lemma normalize_fixes_short_identifiers_witness :
  from_v2 (lit "hg38:chr1:10-20_-")
    = Ok (mkIdentifier (Some (lit "hg38")) (lit "chr1") [mkRange 10 20 "-"] V2) /\
  length [mkRange 10 20 "-"] <= 1 /\
  normalize (mkIdentifier (Some (lit "hg38")) (lit "chr1") [mkRange 10 20 "-"] V2)
    = Ok (mkIdentifier (Some (lit "hg38")) (lit "chr1") [mkRange 10 20 "-"] V2).
Proof.
  split; [vm_compute; reflexivity|]. split; [simpl; lia|].
  apply (normalize_fixes_short_identifiers (lit "hg38:chr1:10-20_-")).
  - vm_compute. reflexivity.
  - simpl. lia.
Defined.

Lemma normalize_result_single_range_witness :
  from_v2 (lit "hg38:chr1:100-200_+:10-50_-:1-5_+") = Ok example_chain /\
  normalize example_chain
    = Ok (mkIdentifier (Some (lit "hg38")) (lit "chr1") [mkRange 145 149 "-"] V2) /\
  length [mkRange 145 149 "-"] <= 1 /\ Forall good_range [mkRange 145 149 "-"].
Proof.
  split; [vm_compute; reflexivity|]. split; [vm_compute; reflexivity|].
  destruct (normalize_result_single_range (lit "hg38:chr1:100-200_+:10-50_-:1-5_+")
              example_chain
              (mkIdentifier (Some (lit "hg38")) (lit "chr1") [mkRange 145 149 "-"] V2))
    as (_ & _ & _ & Hl & Hg & _); [vm_compute; reflexivity | vm_compute; reflexivity |].
  split; [exact Hl | exact Hg].
Defined.

Lemma normalize_idempotent_witness :
  from_v2 (lit "hg38:chr1:100-200_+:10-50_-:1-5_+") = Ok example_chain /\
  normalize example_chain
    = Ok (mkIdentifier (Some (lit "hg38")) (lit "chr1") [mkRange 145 149 "-"] V2) /\
  normalize (mkIdentifier (Some (lit "hg38")) (lit "chr1") [mkRange 145 149 "-"] V2)
    = Ok (mkIdentifier (Some (lit "hg38")) (lit "chr1") [mkRange 145 149 "-"] V2).
Proof.
  split; [vm_compute; reflexivity|]. split; [vm_compute; reflexivity|].
  apply (normalize_idempotent (lit "hg38:chr1:100-200_+:10-50_-:1-5_+") example_chain);
    vm_compute; reflexivity.
Defined.

Lemma from_v2_drops_text_before_newline_witness :
  captures_v2 (lit "chr1:1-5_+") <> None /\
  from_v2 (lit "hg19:chrX" ++ newline :: lit "chr1:1-5_+") = from_v2 (lit "chr1:1-5_+").
Proof.
  split; [vm_compute; discriminate|].
  apply from_v2_drops_text_before_newline. vm_compute. discriminate.
Defined.

Lemma from_v2_rejects_decreasing_suffix_witness :
  nl_free (lit "chr1") /\
  from_v2 (lit "chr1" ++ fmt_range (mkRange 20 10 "+")) = Err DecreasingRange.
Proof.
  split; [unfold nl_free; vm_compute; repeat constructor; discriminate|].
  apply from_v2_rejects_decreasing_suffix.
  - unfold nl_free. vm_compute. repeat constructor; discriminate.
  - vm_compute. reflexivity.
  - vm_compute. discriminate.
  - reflexivity.
Defined.

Lemma convert_id_v1_suffix_witness :
  convert_split (lit "chr1") = Ok (None, lit "chr1") /\
  convert_id (lit "chr1" ++ colon :: show_usize 20 ++ hyphen :: show_usize 10) true
    = Ok (lit "chr1" ++ fmt_range (mkRange 10 21 "-"), V1).
Proof.
  split; [vm_compute; reflexivity|].
  apply (convert_id_v1_suffix (lit "chr1") 20 10 true (None, lit "chr1"));
    vm_compute; try reflexivity; discriminate.
Defined.

Lemma convert_id_output_text_witness :
  convert_loop (S (length (lit "chr1:10-50:2-5"))) false None (lit "chr1:10-50:2-5") []
    = Ok (Some V1, lit "chr1", [mkRange 2 5 "+"; mkRange 10 50 "+"]) /\
  convert_id (lit "chr1:10-50:2-5") false = Ok (lit "chr1:10-50_+:2-5_+", V1) /\
  lit "chr1:10-50_+:2-5_+"
    = lit "chr1" ++ concat (map fmt_range (rev [mkRange 2 5 "+"; mkRange 10 50 "+"])).
Proof.
  split; [vm_compute; reflexivity|]. split; [vm_compute; reflexivity|].
  apply (convert_id_output_text (lit "chr1:10-50:2-5") false (Some V1) (lit "chr1")
           _ _ V1); vm_compute; reflexivity.
Defined.

Lemma from_unknown_format_keeps_ranges_witness :
  captures_v2 (lit "chr1") = None /\
  from_unknown_format (lit "chr1:10-50:2-5") false
    = Ok (mkIdentifier None (lit "chr1") [mkRange 10 50 "+"; mkRange 2 5 "+"] V2, V1) /\
  [mkRange 10 50 "+"; mkRange 2 5 "+"] = rev [mkRange 2 5 "+"; mkRange 10 50 "+"].
Proof.
  split; [vm_compute; reflexivity|]. split; [vm_compute; reflexivity|].
  destruct (from_unknown_format_keeps_ranges (lit "chr1:10-50:2-5") false (Some V1)
              (lit "chr1") [mkRange 2 5 "+"; mkRange 10 50 "+"]
              (mkIdentifier None (lit "chr1") [mkRange 10 50 "+"; mkRange 2 5 "+"] V2) V1)
    as [Hr _]; [vm_compute; reflexivity .. |]. exact Hr.
Defined.

Lemma from_unknown_format_canonical_witness :
  from_unknown_format (lit "chr1:10-50:2-5") false
    = Ok (mkIdentifier None (lit "chr1") [mkRange 10 50 "+"; mkRange 2 5 "+"] V2, V1) /\
  from_v2 (render (mkIdentifier None (lit "chr1") [mkRange 10 50 "+"; mkRange 2 5 "+"] V2))
    = Ok (mkIdentifier None (lit "chr1") [mkRange 10 50 "+"; mkRange 2 5 "+"] V2).
Proof.
  split; [vm_compute; reflexivity|].
  apply (from_unknown_format_canonical (lit "chr1:10-50:2-5") false _ V1).
  vm_compute. reflexivity.
Defined.

Lemma convert_id_zero_outermost_witness :
  convert_loop (S (length (lit "chr1:0-5"))) false None (lit "chr1:0-5") []
    = Ok (Some V1, lit "chr1", [] ++ [mkRange 0 5 "+"]) /\
  convert_id (lit "chr1:0-5") false = Err ZeroCoordinate.
Proof.
  split; [vm_compute; reflexivity|].
  apply (convert_id_zero_outermost (lit "chr1:0-5") false (Some V1) (lit "chr1") []
           (mkRange 0 5 "+") (None, lit "chr1")).
  - vm_compute. reflexivity.
  - vm_compute. reflexivity.
  - vm_compute. reflexivity.
  - left. reflexivity.
Defined.

Lemma convert_id_out_of_bounds_witness :
  convert_loop (S (length (lit "chr1:10-20:5-30"))) false None (lit "chr1:10-20:5-30") []
    = Ok (Some V1, lit "chr1", [] ++ [mkRange 5 30 "+"; mkRange 10 20 "+"]) /\
  convert_id (lit "chr1:10-20:5-30") false = Err OutOfBounds.
Proof.
  split; [vm_compute; reflexivity|].
  apply (convert_id_out_of_bounds (lit "chr1:10-20:5-30") false (Some V1) (lit "chr1") []
           (mkRange 10 20 "+") (mkRange 5 30 "+") (None, lit "chr1"));
    try (vm_compute; reflexivity); try (vm_compute; discriminate).
  right. vm_compute. reflexivity.
Defined.

Lemma from_v2_too_many_colons_witness :
  captures_v2 (lit "a:b:c") = None /\ 2 <= count_colon (lit "a:b:c") /\
  from_v2 (lit "a:b:c" ++ concat (map fmt_range [mkRange 1 5 "+"]))
    = Err MalformedAssemblySequence.
Proof.
  split; [vm_compute; reflexivity|]. split; [vm_compute; lia|].
  apply from_v2_too_many_colons.
  - vm_compute. reflexivity.
  - intros _. unfold nl_free. vm_compute. repeat constructor; discriminate.
  - repeat constructor; vm_compute; try reflexivity; discriminate.
  - vm_compute. lia.
Defined.

Lemma from_v2_empty_sequence_witness :
  captures_v2 (lit "hg38:") = None /\
  from_v2 (lit "hg38:" ++ concat (map fmt_range [mkRange 1 5 "+"])) = Err EmptySequenceId.
Proof.
  split; [vm_compute; reflexivity|].
  apply from_v2_empty_sequence.
  - vm_compute. reflexivity.
  - intros _. unfold nl_free. vm_compute. repeat constructor; discriminate.
  - repeat constructor; vm_compute; try reflexivity; discriminate.
  - right. exists (lit "hg38"). split; vm_compute; reflexivity.
Defined.

Lemma C5_from_v2_accepts_whitespace_witness :
  existsb is_whitespace (lit "chr 1") = true /\
  from_v2 (lit "chr 1" ++ concat (map fmt_range [mkRange 10 50 "+"; mkRange 1 5 "-"]))
  = Ok (mkIdentifier None (lit "chr 1") [mkRange 10 50 "+"; mkRange 1 5 "-"] V2).
Proof.
  split; [vm_compute; reflexivity|].
  apply C5_from_v2_accepts_whitespace.
  - vm_compute. reflexivity.
  - vm_compute. reflexivity.
  - intros _. unfold nl_free. vm_compute. repeat constructor; discriminate.
  - repeat constructor; vm_compute; try reflexivity; discriminate.
  - vm_compute. reflexivity.
  - discriminate.
Defined.

Lemma C7_zero_coordinates_accepted_witness :
  captures_v2 (lit "chr1") = None /\
  from_v2 (lit "chr1" ++ fmt_range (mkRange 0 5 "+"))
  = Ok (mkIdentifier None (lit "chr1") [mkRange 0 5 "+"] V2).
Proof.
  split; [vm_compute; reflexivity|].
  apply (proj1 C7_zero_coordinates_accepted).
  - vm_compute. reflexivity.
  - unfold nl_free. vm_compute. repeat constructor; discriminate.
  - vm_compute. reflexivity.
  - discriminate.
  - vm_compute. reflexivity.
  - vm_compute. discriminate.
Defined.
